(** * bashcodeshift: the query, mutation and source-generation engine

    A shallow embedding of [src/core/transformer.ts] (class [Transformer]),
    of [src/core/parser.ts] (class [BashParser]) and of the node model of
    [src/types.ts].

    Conventions of the embedding.
    - A canonical node is a value of the inductive type [ASTNode], one
      constructor per interface of [types.ts]; [NOther] stands for an
      [ASTNode] whose [type] tag is none of the ten known ones.
    - A JavaScript array that the engine writes by index ([body]) is a
      [list (option ASTNode)]: [None] is an empty slot of a sparse array.
    - Every object carries [oid], its identity: [===] on objects and arrays
      compares identities, never contents.
    - The instance field [rootAST], which [b(source)] sets to the tree it
      hands to the API, is threaded explicitly: a mutator takes the current
      root and returns the root after the in-place update.  The tree is
      assumed to be a tree (no object occurs twice in it), which is what
      the parser builds.
    - The external parser is a parameter of [parse]. *)

From stdpp Require Import base list sorting strings gmap pretty.

Local Open Scope Z_scope.
Local Open Scope nat_scope.

(** ** Node model ([src/types.ts]) *)

Record Position := mkPosition { line : Z; column : Z }.

Record Location := mkLocation { loc_start : Position; loc_end : Position }.

Inductive LoopKind := KFor | KWhile | KUntil.

Inductive CommentKind := KLine | KBlock.

(** A field declared [T | null] and optional: absent, [null], or a value. *)
Inductive nullable (A : Type) :=
| Undefined
| Null
| Present (a : A).
Arguments Undefined {A}.
Arguments Null {A}.
Arguments Present {A} a.

Record RedirectNode := mkRedirect {
  r_oid : nat;
  r_operator : string;
  r_target : string;
  r_fd : option Z;
  r_loc : option Location
}.

Record CommandNode := mkCommand {
  c_oid : nat;
  c_name : string;
  c_arguments : list string;
  c_redirects : option (list RedirectNode);
  c_loc : option Location
}.

(** The ten tags the engine knows. *)
Definition known_kinds : list string :=
  ["Program"; "Command"; "Variable"; "Conditional"; "Loop"; "Function";
   "Pipeline"; "Redirect"; "Subshell"; "Comment"].

Definition known_kind (type : string) : bool :=
  existsb (String.eqb type) known_kinds.

#[warnings="-register-all"]
Inductive ASTNode :=
| NProgram (oid : nat) (body : list (option ASTNode)) (loc : option Location)
| NCommand (c : CommandNode)
| NVariable (oid : nat) (name value : string) (export readonly : option bool)
    (loc : option Location)
| NConditional (oid : nat) (condition : string) (consequent : list ASTNode)
    (alternate : nullable (list ASTNode)) (loc : option Location)
| NLoop (oid : nat) (kind : LoopKind) (variable condition : option string)
    (body : list (option ASTNode)) (loc : option Location)
| NFunction (oid : nat) (name : string) (parameters : option (list string))
    (body : list (option ASTNode)) (loc : option Location)
| NPipeline (oid : nat) (commands : list CommandNode) (negated : option bool)
    (loc : option Location)
| NRedirect (r : RedirectNode)
| NSubshell (oid : nat) (body : list (option ASTNode)) (loc : option Location)
| NComment (oid : nat) (value : string) (kind : CommentKind)
    (loc : option Location)
| NOther (oid : nat) (type : string) (unknown : known_kind type = false)
    (body : option (list (option ASTNode))) (loc : option Location).

(** [node.type] *)
Definition node_type (node : ASTNode) : string :=
  match node with
  | NProgram _ _ _ => "Program"
  | NCommand _ => "Command"
  | NVariable _ _ _ _ _ _ => "Variable"
  | NConditional _ _ _ _ _ => "Conditional"
  | NLoop _ _ _ _ _ _ => "Loop"
  | NFunction _ _ _ _ _ => "Function"
  | NPipeline _ _ _ _ => "Pipeline"
  | NRedirect _ => "Redirect"
  | NSubshell _ _ _ => "Subshell"
  | NComment _ _ _ _ => "Comment"
  | NOther _ type _ _ _ => type
  end.

(** [node.body] when it is an array ([node.body && Array.isArray(node.body)]). *)
Definition node_body (node : ASTNode) : option (list (option ASTNode)) :=
  match node with
  | NProgram _ body _ => Some body
  | NLoop _ _ _ _ body _ => Some body
  | NFunction _ _ _ body _ => Some body
  | NSubshell _ body _ => Some body
  | NOther _ _ _ body _ => body
  | _ => None
  end.

(** The same object with its [body] array holding [body'] (the effect of an
    in-place write to [node.body] seen from the node). *)
Definition with_body (node : ASTNode) (body' : list (option ASTNode)) : ASTNode :=
  match node with
  | NProgram oid _ loc => NProgram oid body' loc
  | NLoop oid kind variable condition _ loc =>
      NLoop oid kind variable condition body' loc
  | NFunction oid name parameters _ loc => NFunction oid name parameters body' loc
  | NSubshell oid _ loc => NSubshell oid body' loc
  | NOther oid type unknown (Some _) loc => NOther oid type unknown (Some body') loc
  | _ => node
  end.

(** ** Source generation ([Transformer.astToSource]) *)

Inductive Quote := QSingle | QDouble.

Record SourceOptions := mkSourceOptions {
  so_quote : option Quote;
  so_indent : option Z;
  so_lineEnding : option string
}.

Definition LF : string := String (Ascii.ascii_of_nat 10) EmptyString.

(** [options.lineEnding || '\n']: the empty string is falsy. *)
Definition lineEnding_of (options : SourceOptions) : string :=
  match so_lineEnding options with
  | Some s => if String.eqb s "" then LF else s
  | None => LF
  end.

(** [Array.prototype.join] *)
Fixpoint join (sep : string) (l : list string) : string :=
  match l with
  | [] => ""
  | [x] => x
  | x :: rest => x +:+ sep +:+ join sep rest
  end.

(** A template literal or [+] applied to an optional string field. *)
Definition str_of (o : option string) : string :=
  match o with
  | Some s => s
  | None => "undefined"
  end.

(** An optional boolean flag used as a condition. *)
Definition truthy (o : option bool) : bool :=
  match o with
  | Some b => b
  | None => false
  end.

(** [case 'Redirect'] *)
Definition redirectToSource (r : RedirectNode) : string :=
  let redirect := "" in
  let redirect :=
    match r_fd r with
    | Some fd => redirect +:+ pretty fd
    | None => redirect
    end in
  redirect +:+ (r_operator r +:+ r_target r).

(** [case 'Command'] *)
Definition commandToSource (c : CommandNode) : string :=
  let cmd := c_name c in
  let cmd :=
    if 0 <? length (c_arguments c)
    then cmd +:+ (" " +:+ join " " (c_arguments c))
    else cmd in
  let cmd :=
    match c_redirects c with
    | Some redirects =>
        if 0 <? length redirects
        then cmd +:+ (" " +:+ join " " (map redirectToSource redirects))
        else cmd
    | None => cmd
    end in
  cmd.

(** [arr.map(f)] on a possibly sparse array followed by [join]: [map] leaves
    an empty slot empty, and [join] prints an empty slot as the empty
    string. *)
Definition map_slots (f : ASTNode → string) (body : list (option ASTNode))
  : list string :=
  map (λ slot, match slot with Some child => f child | None => "" end) body.

Fixpoint astToSource (node : ASTNode) (options : SourceOptions) : string :=
  let lineEnding := lineEnding_of options in
  match node with
  | NProgram _ body _ =>
      join lineEnding (map_slots (λ child, astToSource child options) body)
  | NCommand c => commandToSource c
  | NVariable _ name value export readonly _ =>
      let varStr := name in
      let varStr := if truthy export then "export " +:+ varStr else varStr in
      let varStr := if truthy readonly then "readonly " +:+ varStr else varStr in
      varStr +:+ "=" +:+ value
  | NConditional _ condition consequent alternate _ =>
      let result := "if " +:+ condition +:+ "; then" +:+ lineEnding in
      let result :=
        result +:+
        join lineEnding
          (map (λ child, "  " +:+ astToSource child options) consequent) in
      let result :=
        match alternate with
        | Present alt =>
            (result +:+ (lineEnding +:+ "else" +:+ lineEnding)) +:+
            join lineEnding
              (map (λ child, "  " +:+ astToSource child options) alt)
        | _ => result
        end in
      result +:+ (lineEnding +:+ "fi")
  | NLoop _ kind variable condition body _ =>
      match kind with
      | KFor =>
          "for " +:+ str_of variable +:+ "; do" +:+ lineEnding +:+ "  " +:+
          join (lineEnding +:+ "  ")
            (map_slots (λ child, astToSource child options) body) +:+
          lineEnding +:+ "done"
      | KWhile =>
          "while " +:+ str_of condition +:+ "; do" +:+ lineEnding +:+ "  " +:+
          join (lineEnding +:+ "  ")
            (map_slots (λ child, astToSource child options) body) +:+
          lineEnding +:+ "done"
      | KUntil => ""
      end
  | NFunction _ name _ body _ =>
      "function " +:+ name +:+ "() {" +:+ lineEnding +:+ "  " +:+
      join (lineEnding +:+ "  ")
        (map_slots (λ child, astToSource child options) body) +:+
      lineEnding +:+ "}"
  | NPipeline _ commands negated _ =>
      let pipeline := join " | " (map commandToSource commands) in
      if truthy negated then "!" +:+ pipeline else pipeline
  | NRedirect r => redirectToSource r
  | NSubshell _ body _ =>
      "(" +:+ join "; " (map_slots (λ child, astToSource child options) body)
      +:+ ")"
  | NComment _ value kind _ =>
      match kind with
      | KLine => "# " +:+ value
      | KBlock => "# " +:+ value
      end
  | NOther _ _ _ _ _ => ""
  end.

(** [Transformer.generateSource] *)
Definition generateSource (ast : ASTNode) (options : SourceOptions) : string :=
  astToSource ast options.

(** [options = {}] *)
Definition default_options : SourceOptions := mkSourceOptions None None None.

(** ** JavaScript values seen by the filter ([Record<string, any>]) *)

(** Object identities: a node, the array or object held by one of its
    fields, or an object allocated outside the tree (by the caller). *)
Inductive ref :=
| RNode (oid : nat)
| RProp (oid : nat) (key : string)
| RHeap (addr : nat).

Global Instance ref_eq_dec : EqDecision ref.
Proof. solve_decision. Defined.

#[warnings="-register-all"]
Inductive jsval :=
| VUndefined
| VNull
| VBool (b : bool)
| VNum (z : Z)
| VNaN
| VStr (s : string)
| VArray (r : ref) (items : list jsval)
| VObject (r : ref).

(** [a === b]: primitives by value ([NaN] equals nothing), objects and
    arrays by identity. *)
Definition strict_eq (a b : jsval) : bool :=
  match a, b with
  | VUndefined, VUndefined => true
  | VNull, VNull => true
  | VBool x, VBool y => Bool.eqb x y
  | VNum x, VNum y => Z.eqb x y
  | VStr x, VStr y => String.eqb x y
  | VArray r _, VArray r' _ => bool_decide (r = r')
  | VObject r, VObject r' => bool_decide (r = r')
  | _, _ => false
  end.

(** [Array.isArray] *)
Definition isArray (v : jsval) : bool :=
  match v with
  | VArray _ _ => true
  | _ => false
  end.

(** [arr[index]] *)
Definition item_at (items : list jsval) (index : nat) : jsval :=
  default VUndefined (items !! index).

Definition node_oid (node : ASTNode) : nat :=
  match node with
  | NProgram oid _ _ => oid
  | NCommand c => c_oid c
  | NVariable oid _ _ _ _ _ => oid
  | NConditional oid _ _ _ _ => oid
  | NLoop oid _ _ _ _ _ => oid
  | NFunction oid _ _ _ _ => oid
  | NPipeline oid _ _ _ => oid
  | NRedirect r => r_oid r
  | NSubshell oid _ _ => oid
  | NComment oid _ _ _ => oid
  | NOther oid _ _ _ _ => oid
  end.

Definition node_loc (node : ASTNode) : option Location :=
  match node with
  | NProgram _ _ loc => loc
  | NCommand c => c_loc c
  | NVariable _ _ _ _ _ loc => loc
  | NConditional _ _ _ _ loc => loc
  | NLoop _ _ _ _ _ loc => loc
  | NFunction _ _ _ _ loc => loc
  | NPipeline _ _ _ loc => loc
  | NRedirect r => r_loc r
  | NSubshell _ _ loc => loc
  | NComment _ _ _ loc => loc
  | NOther _ _ _ _ loc => loc
  end.

Definition v_ostr (o : option string) : jsval :=
  match o with Some s => VStr s | None => VUndefined end.

Definition v_obool (o : option bool) : jsval :=
  match o with Some b => VBool b | None => VUndefined end.

Definition v_strings (oid : nat) (key : string) (l : list string) : jsval :=
  VArray (RProp oid key) (map VStr l).

Definition v_slot (slot : option ASTNode) : jsval :=
  match slot with
  | Some child => VObject (RNode (node_oid child))
  | None => VUndefined
  end.

Definition v_body (oid : nat) (key : string) (body : list (option ASTNode)) : jsval :=
  VArray (RProp oid key) (map v_slot body).

Definition v_nodes (oid : nat) (key : string) (l : list ASTNode) : jsval :=
  VArray (RProp oid key) (map (λ child, VObject (RNode (node_oid child))) l).

Definition kind_name (kind : LoopKind) : string :=
  match kind with KFor => "for" | KWhile => "while" | KUntil => "until" end.

Definition comment_kind_name (kind : CommentKind) : string :=
  match kind with KLine => "line" | KBlock => "block" end.

(** The fields of each kind, by name. *)
Definition own_prop (node : ASTNode) (key : string) : jsval :=
  match node with
  | NProgram oid body _ =>
      if String.eqb key "body" then v_body oid key body
      else if String.eqb key "sourceType" then VStr "script"
      else VUndefined
  | NCommand c =>
      if String.eqb key "name" then VStr (c_name c)
      else if String.eqb key "arguments" then v_strings (c_oid c) key (c_arguments c)
      else if String.eqb key "redirects" then
        match c_redirects c with
        | Some redirects =>
            VArray (RProp (c_oid c) key)
              (map (λ r, VObject (RNode (r_oid r))) redirects)
        | None => VUndefined
        end
      else VUndefined
  | NVariable _ name value export readonly _ =>
      if String.eqb key "name" then VStr name
      else if String.eqb key "value" then VStr value
      else if String.eqb key "export" then v_obool export
      else if String.eqb key "readonly" then v_obool readonly
      else VUndefined
  | NConditional oid condition consequent alternate _ =>
      if String.eqb key "condition" then VStr condition
      else if String.eqb key "consequent" then v_nodes oid key consequent
      else if String.eqb key "alternate" then
        match alternate with
        | Undefined => VUndefined
        | Null => VNull
        | Present alt => v_nodes oid key alt
        end
      else VUndefined
  | NLoop oid kind variable condition body _ =>
      if String.eqb key "kind" then VStr (kind_name kind)
      else if String.eqb key "variable" then v_ostr variable
      else if String.eqb key "condition" then v_ostr condition
      else if String.eqb key "body" then v_body oid key body
      else VUndefined
  | NFunction oid name parameters body _ =>
      if String.eqb key "name" then VStr name
      else if String.eqb key "parameters" then
        match parameters with
        | Some l => v_strings oid key l
        | None => VUndefined
        end
      else if String.eqb key "body" then v_body oid key body
      else VUndefined
  | NPipeline oid commands negated _ =>
      if String.eqb key "commands" then
        VArray (RProp oid key) (map (λ c, VObject (RNode (c_oid c))) commands)
      else if String.eqb key "negated" then v_obool negated
      else VUndefined
  | NRedirect r =>
      if String.eqb key "operator" then VStr (r_operator r)
      else if String.eqb key "target" then VStr (r_target r)
      else if String.eqb key "fd" then
        match r_fd r with Some fd => VNum fd | None => VUndefined end
      else VUndefined
  | NSubshell oid body _ =>
      if String.eqb key "body" then v_body oid key body else VUndefined
  | NComment _ value kind _ =>
      if String.eqb key "value" then VStr value
      else if String.eqb key "kind" then VStr (comment_kind_name kind)
      else VUndefined
  | NOther oid _ _ body _ =>
      if String.eqb key "body" then
        match body with
        | Some l => v_body oid key l
        | None => VUndefined
        end
      else VUndefined
  end.

(** [node[key]]; members inherited from [Object.prototype] are not
    modelled, a key that is no field of the node reads [undefined]. *)
Definition getProp (node : ASTNode) (key : string) : jsval :=
  if String.eqb key "type" then VStr (node_type node)
  else if String.eqb key "loc" then
    match node_loc node with
    | Some _ => VObject (RProp (node_oid node) key)
    | None => VUndefined
    end
  else own_prop node key.

(** ** Query engine *)

(** [Transformer.arraysEqual] *)
Definition arraysEqual (arr1 arr2 : jsval) : bool :=
  match arr1, arr2 with
  | VArray _ items1, VArray _ items2 =>
      if negb (length items1 =? length items2) then false
      else
        forallb (λ p : nat * jsval, strict_eq p.2 (item_at items2 p.1))
          (zip (seq 0 (length items1)) items1)
  | _, _ => false
  end.

(** [Transformer.matchesFilter]; [Object.keys(filter)] lists the keys of the
    record and [filter[key]] reads one. *)
Definition matchesFilter (node : ASTNode) (filter : gmap string jsval) : bool :=
  forallb
    (λ key,
       let expected := default VUndefined (filter !! key) in
       if String.eqb key "arguments" && isArray expected
       then arraysEqual (getProp node "arguments") expected
       else strict_eq (getProp node key) expected)
    (map fst (map_to_list filter)).

Record PathItem := mkPathItem { pi_node : ASTNode; pi_index : nat }.

(** A handle: the node, its path, and the five operations, which close over
    the same node and path (see [handle_replace] and the like below). *)
Record NodePath := mkNodePath { np_value : ASTNode; np_path : list PathItem }.

(** [arr.forEach((child, index) => ...)] with the effect of the callback on
    a state [S]; [forEach] skips the empty slots of a sparse array and
    passes each element its array index. *)
Fixpoint forEach_from {S : Type} (f : ASTNode → nat → S → S)
    (arr : list (option ASTNode)) (index : nat) (s : S) : S :=
  match arr with
  | [] => s
  | None :: rest => forEach_from f rest (index + 1) s
  | Some child :: rest => forEach_from f rest (index + 1) (f child index s)
  end.

Definition forEach {S : Type} (arr : list (option ASTNode))
    (f : ASTNode → nat → S → S) (s : S) : S :=
  forEach_from f arr 0 s.

(** [Transformer.walkAST]; the callback acts on a state [S] (the collection
    under construction). *)
Fixpoint walkAST {S : Type} (node : ASTNode)
    (callback : ASTNode → list PathItem → S → S)
    (path : list PathItem) (s : S) : S :=
  let s := callback node path s in
  let walk_body := λ body : list (option ASTNode),
    forEach body
      (λ child index,
         walkAST child callback (path ++ [mkPathItem child index])) s in
  match node with
  | NProgram _ body _ => walk_body body
  | NLoop _ _ _ _ body _ => walk_body body
  | NFunction _ _ _ body _ => walk_body body
  | NSubshell _ body _ => walk_body body
  | NOther _ _ _ (Some body) _ => walk_body body
  | _ => s
  end.

(** [Transformer.findNodes]; [nodeType] is declared [string | any], and the
    test [node.type === nodeType] holds for the string that is the tag. *)
Definition findNodes (ast : ASTNode) (nodeType : jsval)
    (filter : gmap string jsval) : list NodePath :=
  walkAST ast
    (λ node path collection,
       if strict_eq (VStr (node_type node)) nodeType && matchesFilter node filter
       then collection ++ [mkNodePath node path]
       else collection)
    [] [].

(** [filter], [forEach], [map], [size] of the API act on the collection. *)
Definition filterCollection (collection : list NodePath)
    (predicate : NodePath → bool) : list NodePath :=
  List.filter predicate collection.

Definition mapCollection {T : Type} (collection : list NodePath)
    (callback : NodePath → T) : list T :=
  map callback collection.

Definition sizeCollection (collection : list NodePath) : nat :=
  length collection.

(** ** Path-addressed mutation *)

(** [current.body[index]]: an empty slot and an index past the end both
    read [undefined]. *)
Definition body_at (body : list (option ASTNode)) (index : nat) : option ASTNode :=
  mjoin (body !! index).

(** The loop of [Transformer.getNodeAtPath], started at [current]; [None]
    is [null] or [undefined]. *)
Fixpoint getNodeFrom (current : option ASTNode) (path : list PathItem)
  : option ASTNode :=
  match path with
  | [] => current
  | pathItem :: rest =>
      match current with
      | Some node =>
          match node_body node with
          | Some body => getNodeFrom (body_at body (pi_index pathItem)) rest
          | None => None
          end
      | None => None
      end
  end.

(** [Transformer.getNodeAtPath], reading [this.rootAST]. *)
Definition getNodeAtPath (rootAST : option ASTNode) (path : list PathItem)
  : option ASTNode :=
  getNodeFrom rootAST path.

(** The tree after the [body] array of the object reached from [node]
    through [path] has been given the contents [body']: the in-place write
    to [parent.body], seen from the root.  Objects off the path are not
    touched. *)
Fixpoint storeBody (node : ASTNode) (path : list PathItem)
    (body' : list (option ASTNode)) : ASTNode :=
  match path with
  | [] => with_body node body'
  | pathItem :: rest =>
      match node_body node with
      | Some body =>
          match body_at body (pi_index pathItem) with
          | Some child =>
              with_body node
                (<[pi_index pathItem := Some (storeBody child rest body')]> body)
          | None => node
          end
      | None => node
      end
  end.

(** [arr[index] = x]: overwrites in range, and past the end extends the
    array, leaving empty slots between the old end and [index]. *)
Definition array_set (arr : list (option ASTNode)) (index : nat) (x : ASTNode)
  : list (option ASTNode) :=
  if decide (index < length arr) then <[index := Some x]> arr
  else arr ++ replicate (index - length arr) None ++ [Some x].

(** [arr.splice(start, 0, x)]: [start] past the end is clamped to the end. *)
Definition splice_insert (arr : list (option ASTNode)) (start : nat) (x : ASTNode)
  : list (option ASTNode) :=
  take start arr ++ Some x :: drop start arr.

(** [arr.splice(start, 1)]: nothing to delete past the end. *)
Definition splice_remove (arr : list (option ASTNode)) (start : nat)
  : list (option ASTNode) :=
  take start arr ++ drop (start + 1) arr.

(** [path.slice(0, -1)] *)
Definition parent_path (path : list PathItem) : list PathItem :=
  take (length path - 1) path.

(** The root after the [body] array of the object at [path] has been
    written. *)
Definition write_body (rootAST : option ASTNode) (path : list PathItem)
    (body' : list (option ASTNode)) : option ASTNode :=
  (λ root, storeBody root path body') <$> rootAST.

(** [Transformer.replaceNode] *)
Definition replaceNode (rootAST : option ASTNode) (path : NodePath)
    (newNode : ASTNode)
  : option ASTNode :=
  if length (np_path path) =? 0 then rootAST
  else
    match last (np_path path) with
    | None => rootAST
    | Some lastPath =>
        let parent := getNodeAtPath rootAST (parent_path (np_path path)) in
        match parent with
        | Some parent =>
            match node_body parent with
            | Some body =>
                write_body rootAST (parent_path (np_path path))
                  (array_set body (pi_index lastPath) newNode)
            | None => rootAST
            end
        | None => rootAST
        end
    end.

(** [Transformer.insertBeforeNode] *)
Definition insertBeforeNode (rootAST : option ASTNode) (path : NodePath)
    (newNode : ASTNode)
  : option ASTNode :=
  if length (np_path path) =? 0 then rootAST
  else
    match last (np_path path) with
    | None => rootAST
    | Some lastPath =>
        let parent := getNodeAtPath rootAST (parent_path (np_path path)) in
        match parent with
        | Some parent =>
            match node_body parent with
            | Some body =>
                write_body rootAST (parent_path (np_path path))
                  (splice_insert body (pi_index lastPath) newNode)
            | None => rootAST
            end
        | None => rootAST
        end
    end.

(** [Transformer.insertAfterNode] *)
Definition insertAfterNode (rootAST : option ASTNode) (path : NodePath)
    (newNode : ASTNode)
  : option ASTNode :=
  if length (np_path path) =? 0 then rootAST
  else
    match last (np_path path) with
    | None => rootAST
    | Some lastPath =>
        let parent := getNodeAtPath rootAST (parent_path (np_path path)) in
        match parent with
        | Some parent =>
            match node_body parent with
            | Some body =>
                write_body rootAST (parent_path (np_path path))
                  (splice_insert body (pi_index lastPath + 1) newNode)
            | None => rootAST
            end
        | None => rootAST
        end
    end.

(** [Transformer.removeNode] *)
Definition removeNode (rootAST : option ASTNode) (path : NodePath)
  : option ASTNode :=
  if length (np_path path) =? 0 then rootAST
  else
    match last (np_path path) with
    | None => rootAST
    | Some lastPath =>
        let parent := getNodeAtPath rootAST (parent_path (np_path path)) in
        match parent with
        | Some parent =>
            match node_body parent with
            | Some body =>
                write_body rootAST (parent_path (np_path path))
                  (splice_remove body (pi_index lastPath))
            | None => rootAST
            end
        | None => rootAST
        end
    end.

(** [Transformer.pruneNode] *)
Definition pruneNode (rootAST : option ASTNode) (path : NodePath)
  : option ASTNode :=
  removeNode rootAST path.

(** The operations a handle built by [findNodes] carries: each closes over
    [{ value: node, path: path }]. *)
Definition handle_replace (h : NodePath) (newNode : ASTNode)
    (rootAST : option ASTNode) : option ASTNode :=
  replaceNode rootAST (mkNodePath (np_value h) (np_path h)) newNode.

Definition handle_insertBefore (h : NodePath) (newNode : ASTNode)
    (rootAST : option ASTNode) : option ASTNode :=
  insertBeforeNode rootAST (mkNodePath (np_value h) (np_path h)) newNode.

Definition handle_insertAfter (h : NodePath) (newNode : ASTNode)
    (rootAST : option ASTNode) : option ASTNode :=
  insertAfterNode rootAST (mkNodePath (np_value h) (np_path h)) newNode.

Definition handle_remove (h : NodePath) (rootAST : option ASTNode)
  : option ASTNode :=
  removeNode rootAST (mkNodePath (np_value h) (np_path h)).

Definition handle_prune (h : NodePath) (rootAST : option ASTNode)
  : option ASTNode :=
  pruneNode rootAST (mkNodePath (np_value h) (np_path h)).

(** ** Normalizer ([src/core/parser.ts]) *)

(** A thrown [Error]; the handler of [parse] reads its [message]. *)
Record JsError := mkError { message : string }.

Inductive outcome (A : Type) :=
| Return (a : A)
| Throw (e : JsError).
Arguments Return {A} a.
Arguments Throw {A} e.

(** Computations of the converter: they allocate objects (the counter is the
    next fresh identity) and may throw. *)
Definition Conv (A : Type) : Type := nat → outcome (A * nat).

Global Instance Conv_ret : MRet Conv := λ A a next, Return (a, next).

Global Instance Conv_bind : MBind Conv := λ A B f m next,
  match m next with
  | Return (a, next') => f a next'
  | Throw e => Throw e
  end.

Definition fresh : Conv nat := λ next, Return (next, S next).

Definition throw {A : Type} (e : JsError) : Conv A := λ _, Throw e.

(** [try { body } catch (error) { handler(error) }] *)
Definition try_catch {A : Type} (body : Conv A) (handler : JsError → Conv A)
  : Conv A :=
  λ next,
    match body next with
    | Return r => Return r
    | Throw e => handler e next
    end.

(** The engine's [TypeError] for a member read or call on [undefined] or on
    a value without that method; its text is the engine's own. *)
Definition TypeError : JsError := mkError "TypeError".

Inductive one_or_many (A : Type) :=
| One (a : A)
| Many (l : list A).
Arguments One {A} a.
Arguments Many {A} l.

(** The external parser's node ([BashParserAST]): a [type] tag and the
    fields the converter reads, each with the type the converter assumes. *)
#[warnings="-register-all"]
Inductive RawNode := mkRaw {
  raw_type : string;
  raw_loc : option Location;
  raw_name : option string;
  raw_args : option (list string);
  raw_redirects : option (list RawNode);
  raw_value : option string;
  raw_export : option bool;
  raw_readonly : option bool;
  raw_condition : option (string + RawNode);
  raw_then : option (one_or_many RawNode);
  raw_else : option (one_or_many RawNode);
  raw_variable : option string;
  raw_body : option (one_or_many RawNode);
  raw_parameters : option (list string);
  raw_commands : option (list RawNode);
  raw_negated : option bool;
  raw_operator : option string;
  raw_target : option string;
  raw_fd : option Z;
  raw_kind : option CommentKind
}.

Record ParserOptions := mkParserOptions {
  locations : option bool;
  comments : option bool;
  ranges : option bool
}.

(** The constructor of [BashParser]: the three flags default to [true]. *)
Definition BashParser_options (options : ParserOptions) : ParserOptions :=
  mkParserOptions
    (Some (default true (locations options)))
    (Some (default true (comments options)))
    (Some (default true (ranges options))).

(** [x || ''] on an optional string. *)
Definition or_empty (o : option string) : string := default "" o.

(** [BashParser.getLocation] *)
Definition getLocation (node : RawNode) : option Location :=
  match raw_loc node with
  | Some loc =>
      Some (mkLocation
              (mkPosition (line (loc_start loc)) (column (loc_start loc)))
              (mkPosition (line (loc_end loc)) (column (loc_end loc))))
  | None => None
  end.

(** [source.split('\n')] *)
Fixpoint split_lines (s : string) : list string :=
  match s with
  | EmptyString => [""]
  | String c rest =>
      if Ascii.eqb c (Ascii.ascii_of_nat 10) then "" :: split_lines rest
      else
        match split_lines rest with
        | first :: others => String c first :: others
        | [] => [String c ""]
        end
  end.

(** An index argument of [substring], clamped to the string. *)
Definition clamp_index (len : nat) (i : Z) : nat :=
  Z.to_nat (Z.min (Z.max i 0) (Z.of_nat len)).

(** [s.substring(from, to)] *)
Definition js_substring (s : string) (from to : Z) : string :=
  let a := clamp_index (String.length s) from in
  let b := clamp_index (String.length s) to in
  String.substring (a `min` b) ((a `max` b) - (a `min` b)) s.

(** [s.substring(from)] *)
Definition js_substring_from (s : string) (from : Z) : string :=
  js_substring s from (Z.of_nat (String.length s)).

(** [lines[i]] for a numeric index. *)
Definition line_at (lines : list string) (i : Z) : option string :=
  if (i <? 0)%Z then None else lines !! Z.to_nat i.

(** [BashParser.getNodeText] *)
Definition getNodeText (node : option (string + RawNode)) (source : string)
  : Conv string :=
  match node with
  | Some (inl text) => mret text
  | Some (inr n) =>
      match raw_loc n with
      | Some loc =>
          let lines := split_lines source in
          let startLine := (line (loc_start loc) - 1)%Z in
          let endLine := (line (loc_end loc) - 1)%Z in
          if (startLine =? endLine)%Z then
            match line_at lines startLine with
            | Some l =>
                mret (js_substring l (column (loc_start loc)) (column (loc_end loc)))
            | None => throw TypeError
            end
          else
            match line_at lines startLine with
            | Some l =>
                let parts := [js_substring_from l (column (loc_start loc))] in
                let parts :=
                  parts ++
                  map (λ i, default "" (lines !! i))
                    (seq (Z.to_nat startLine + 1)
                         (Z.to_nat endLine - (Z.to_nat startLine + 1))) in
                match line_at lines endLine with
                | Some l' =>
                    mret (join LF (parts ++ [js_substring l' 0 (column (loc_end loc))]))
                | None => throw TypeError
                end
            | None => throw TypeError
            end
      | None => mret ""
      end
  | None => mret ""
  end.

(** [BashParser.convertRedirect] *)
Definition convertRedirect (node : RawNode) (source : string) : Conv RedirectNode :=
  oid ← fresh;
  mret (mkRedirect oid (or_empty (raw_operator node)) (or_empty (raw_target node))
          (raw_fd node) (getLocation node)).

(** [arr.map(f)] for a converter [f]. *)
Fixpoint conv_map {A B : Type} (f : A → Conv B) (l : list A) : Conv (list B) :=
  match l with
  | [] => mret []
  | x :: rest => y ← f x; ys ← conv_map f rest; mret (y :: ys)
  end.

(** [BashParser.convertCommand] *)
Definition convertCommand (node : RawNode) (source : string) : Conv CommandNode :=
  oid ← fresh;
  redirects ←
    match raw_redirects node with
    | Some l => rs ← conv_map (λ redirect, convertRedirect redirect source) l;
                mret (Some rs)
    | None => mret None
    end;
  mret (mkCommand oid (or_empty (raw_name node)) (default [] (raw_args node))
          redirects (getLocation node)).

(** [BashParser.convertVariableAssignment] *)
Definition convertVariableAssignment (node : RawNode) (source : string)
  : Conv ASTNode :=
  oid ← fresh;
  mret (NVariable oid (or_empty (raw_name node)) (or_empty (raw_value node))
          (Some (default false (raw_export node)))
          (Some (default false (raw_readonly node)))
          (getLocation node)).

(** [BashParser.convertPipeline] *)
Definition convertPipeline (node : RawNode) (source : string) : Conv ASTNode :=
  oid ← fresh;
  commands ← conv_map (λ cmd, convertCommand cmd source)
                (default [] (raw_commands node));
  mret (NPipeline oid commands (Some (default false (raw_negated node)))
          (getLocation node)).

(** [BashParser.convertComment] *)
Definition convertComment (node : RawNode) (source : string) : Conv ASTNode :=
  oid ← fresh;
  mret (NComment oid (or_empty (raw_value node)) (default KLine (raw_kind node))
          (getLocation node)).

(** All the nodes a body holds are present: the converter builds its arrays
    with [push]. *)
Definition dense (l : list ASTNode) : list (option ASTNode) := map Some l.

(** [BashParser.walkNode], together with [extractBody] and the four
    converters that recurse through it; the result is the sequence of nodes
    pushed onto [body]. *)
Fixpoint walkNode (node : RawNode) (source : string) {struct node}
  : Conv (list ASTNode) :=
  let walkEach :=
    fix walkEach (children : list RawNode) : Conv (list ASTNode) :=
      match children with
      | [] => mret []
      | child :: rest =>
          xs ← walkNode child source; ys ← walkEach rest; mret (xs ++ ys)
      end in
  let extractBody := λ (b : option (one_or_many RawNode)),
    match b with
    | Some (Many children) => walkEach children
    | Some (One child) => walkNode child source
    | None => mret []
    end in
  let type := raw_type node in
  if String.eqb type "Script" then
    match raw_body node with
    | Some (Many children) => walkEach children
    | Some (One _) => throw TypeError
    | None => mret []
    end
  else if String.eqb type "Command" then
    c ← convertCommand node source; mret [NCommand c]
  else if String.eqb type "Assignment" then
    v ← convertVariableAssignment node source; mret [v]
  else if String.eqb type "If" then
    oid ← fresh;
    condition ← getNodeText (raw_condition node) source;
    consequent ← extractBody (raw_then node);
    alternate ←
      match raw_else node with
      | Some e => alt ← extractBody (Some e); mret (Present alt)
      | None => mret Null
      end;
    mret [NConditional oid condition consequent alternate (getLocation node)]
  else if String.eqb type "For" then
    oid ← fresh;
    body ← extractBody (raw_body node);
    mret [NLoop oid KFor (Some (or_empty (raw_variable node))) None
            (dense body) (getLocation node)]
  else if String.eqb type "While" then
    oid ← fresh;
    condition ← getNodeText (raw_condition node) source;
    body ← extractBody (raw_body node);
    mret [NLoop oid KWhile None (Some condition) (dense body) (getLocation node)]
  else if String.eqb type "Function" then
    oid ← fresh;
    body ← extractBody (raw_body node);
    mret [NFunction oid (or_empty (raw_name node))
            (Some (default [] (raw_parameters node))) (dense body)
            (getLocation node)]
  else if String.eqb type "Pipeline" then
    p ← convertPipeline node source; mret [p]
  else if String.eqb type "Subshell" then
    oid ← fresh;
    body ← extractBody (raw_body node);
    mret [NSubshell oid (dense body) (getLocation node)]
  else if String.eqb type "Comment" then
    c ← convertComment node source; mret [c]
  else
    match raw_body node with
    | Some (Many children) => walkEach children
    | _ => mret []
    end.

(** [BashParser.convertToJSCodeshiftAST] *)
Definition convertToJSCodeshiftAST (node : RawNode) (source : string)
  : Conv ASTNode :=
  oid ← fresh;
  body ← walkNode node source;
  mret (NProgram oid (dense body) (getLocation node)).

Section Parse.

(** The external parser, [parse] of [@isdk/bash-parser]: it returns a raw
    tree or throws. *)
Variable parseBash : string → ParserOptions → outcome RawNode.

(** [this.options] of the [BashParser] instance. *)
Variable options : ParserOptions.

(** [BashParser.parse] *)
Definition parse (source : string) : Conv ASTNode :=
  try_catch
    (λ next,
       match parseBash source options with
       | Return bashAST => convertToJSCodeshiftAST bashAST source next
       | Throw e => Throw e
       end)
    (λ error,
       throw (mkError ("Failed to parse bash source: " +:+ message error))).

End Parse.

(** ** Utilities ([src/core/utils.ts])

    Strings are sequences of bytes; the characters the regular expressions
    below name are ASCII, and no byte of a longer UTF-8 sequence is. *)

Definition dquote : Ascii.ascii := Ascii.ascii_of_nat 34.
Definition dollar : Ascii.ascii := Ascii.ascii_of_nat 36.
Definition squote : Ascii.ascii := Ascii.ascii_of_nat 39.
Definition backslash : Ascii.ascii := Ascii.ascii_of_nat 92.
Definition underscore : Ascii.ascii := Ascii.ascii_of_nat 95.
Definition backtick : Ascii.ascii := Ascii.ascii_of_nat 96.
Definition dash : Ascii.ascii := Ascii.ascii_of_nat 45.
Definition equals_sign : Ascii.ascii := Ascii.ascii_of_nat 61.

(** A character of the class [c1-c2], by character codes. *)
Definition in_range (lo hi : nat) (c : Ascii.ascii) : bool :=
  (lo <=? Ascii.nat_of_ascii c) && (Ascii.nat_of_ascii c <=? hi).

(** The class of the characters that are escaped: the double quote, the
    single quote, the dollar sign, the backtick and the backslash. *)
Definition is_special (c : Ascii.ascii) : bool :=
  Ascii.eqb c dquote || Ascii.eqb c squote || Ascii.eqb c dollar
  || Ascii.eqb c backtick || Ascii.eqb c backslash.

(** The class [[a-zA-Z_]]. *)
Definition is_ident_start (c : Ascii.ascii) : bool :=
  in_range 97 122 c || in_range 65 90 c || Ascii.eqb c underscore.

(** The class [[a-zA-Z0-9_]]. *)
Definition is_ident_char (c : Ascii.ascii) : bool :=
  in_range 97 122 c || in_range 65 90 c || in_range 48 57 c
  || Ascii.eqb c underscore.

(** Every character of the string is in the class. *)
Fixpoint all_chars (p : Ascii.ascii → bool) (s : string) : bool :=
  match s with
  | EmptyString => true
  | String c rest => p c && all_chars p rest
  end.

(** [isValidIdentifier]: the whole string is a letter or underscore
    followed by any number of letters, digits and underscores. *)
Definition isValidIdentifier (str : string) : bool :=
  match str with
  | EmptyString => false
  | String c rest => is_ident_start c && all_chars is_ident_char rest
  end.

(** [escapeBashString]: [replace] with the global pattern of the escaped
    class puts a backslash in front of every character of the class. *)
Fixpoint escapeBashString (str : string) : string :=
  match str with
  | EmptyString => EmptyString
  | String c rest =>
      if is_special c then String backslash (String c (escapeBashString rest))
      else String c (escapeBashString rest)
  end.

(** [unescapeBashString]: [replace] with the global pattern of a backslash
    followed by a character of the escaped class.  Scanning from the left,
    such a pair is replaced by its second character, and the scan goes on
    after the pair. *)
Fixpoint unescapeBashString (str : string) : string :=
  match str with
  | EmptyString => EmptyString
  | String c rest =>
      match rest with
      | String d rest' =>
          if Ascii.eqb c backslash && is_special d
          then String d (unescapeBashString rest')
          else String c (unescapeBashString rest)
      | EmptyString => String c EmptyString
      end
  end.

(** The longest prefix of characters of the class [[a-zA-Z0-9_]]. *)
Fixpoint ident_prefix (s : string) : string :=
  match s with
  | EmptyString => EmptyString
  | String c rest =>
      if is_ident_char c then String c (ident_prefix rest) else EmptyString
  end.

(** The string starts with a character of the class [[a-zA-Z_]]. *)
Definition starts_ident (s : string) : bool :=
  match s with
  | EmptyString => false
  | String c _ => is_ident_start c
  end.

(** [containsVariables]: somewhere in the string there is a dollar sign
    followed by a letter or underscore. *)
Fixpoint containsVariables (str : string) : bool :=
  match str with
  | EmptyString => false
  | String c rest =>
      (Ascii.eqb c dollar && starts_ident rest) || containsVariables rest
  end.

(** [extractVariables]: the matches of the global pattern (a dollar sign,
    a letter or underscore, then letters, digits and underscores) from
    left to right, each without its dollar sign.  A match is the dollar
    sign and the longest run of identifier characters after it; the search
    for the next one resumes after the match, which is the same as
    resuming after the dollar sign, since no match starts inside a run of
    identifier characters. *)
Fixpoint extractVariables (str : string) : list string :=
  match str with
  | EmptyString => []
  | String c rest =>
      if Ascii.eqb c dollar && starts_ident rest
      then ident_prefix rest :: extractVariables rest
      else extractVariables rest
  end.

(** [s.split(sep)] for a separator of one character. *)
Fixpoint split_char (sep : Ascii.ascii) (s : string) : list string :=
  match s with
  | EmptyString => [""]
  | String c rest =>
      if Ascii.eqb c sep then "" :: split_char sep rest
      else
        match split_char sep rest with
        | first :: others => String c first :: others
        | [] => [String c ""]
        end
  end.

(** [arg.startsWith('-')] and [arg.startsWith('--')] *)
Definition starts_with_dash (arg : string) : bool :=
  match arg with
  | String c _ => Ascii.eqb c dash
  | EmptyString => false
  end.

Definition starts_with_two_dashes (arg : string) : bool :=
  match arg with
  | String c (String d _) => Ascii.eqb c dash && Ascii.eqb d dash
  | _ => false
  end.

(** [arg.slice(n)] *)
Definition slice_from (n : nat) (arg : string) : string :=
  String.substring n (String.length arg - n) arg.

(** The value of an option: [true] or a text. *)
Inductive OptionValue :=
| OTrue
| OText (value : string).

Record ParsedArguments := mkParsedArguments {
  pa_options : gmap string OptionValue;
  pa_positional : list string
}.

(** [options[key] = value] on a plain object: the key [__proto__] is the
    prototype accessor, which ignores a value that is no object, so the
    record is left as it is. *)
Definition set_option (options : gmap string OptionValue) (key : string)
    (value : OptionValue) : gmap string OptionValue :=
  if String.eqb key "__proto__" then options else <[key := value]> options.

(** The key a [-] argument sets, and the value it sets it to. *)
Definition option_key (arg : string) : string :=
  if starts_with_two_dashes arg
  then default "" (head (split_char equals_sign (slice_from 2 arg)))
  else slice_from 1 arg.

Definition option_value (arg : string) : OptionValue :=
  if starts_with_two_dashes arg then
    match split_char equals_sign (slice_from 2 arg) !! 1 with
    | Some value => if String.eqb value "" then OTrue else OText value
    | None => OTrue
    end
  else OTrue.

(** One turn of the loop of [parseArguments]. *)
Definition parse_argument (parsed : ParsedArguments) (arg : string)
  : ParsedArguments :=
  if starts_with_dash arg then
    mkParsedArguments
      (set_option (pa_options parsed) (option_key arg) (option_value arg))
      (pa_positional parsed)
  else
    mkParsedArguments (pa_options parsed) (pa_positional parsed ++ [arg]).

(** [parseArguments] *)
Definition parseArguments (args : list string) : ParsedArguments :=
  fold_left parse_argument args (mkParsedArguments ∅ []).

(** ** Notions used to state the properties *)

(** The indices of a path: all that path resolution reads. *)
Definition path_indices (path : list PathItem) : list nat := map pi_index path.

(** Strict equality as a relation: what [===] decides. *)
Inductive StrictEq : jsval → jsval → Prop :=
| StrictEq_undefined : StrictEq VUndefined VUndefined
| StrictEq_null : StrictEq VNull VNull
| StrictEq_bool b : StrictEq (VBool b) (VBool b)
| StrictEq_num z : StrictEq (VNum z) (VNum z)
| StrictEq_str s : StrictEq (VStr s) (VStr s)
| StrictEq_array r items items' : StrictEq (VArray r items) (VArray r items')
| StrictEq_object r : StrictEq (VObject r) (VObject r).

(** Same length and pairwise strictly equal elements. *)
Definition elementwise_equal (items1 items2 : list jsval) : Prop :=
  length items1 = length items2 ∧
  ∀ i a b, items1 !! i = Some a → items2 !! i = Some b → StrictEq a b.

(** What one entry [key: expected] of a filter asks of a node: for the key
    [arguments] with a sequence, a node whose [arguments] is a sequence
    equal to it element by element; for any other entry, a strictly equal
    value under that key. *)
Definition entry_matches (node : ASTNode) (key : string) (expected : jsval)
  : Prop :=
  match expected with
  | VArray _ items2 =>
      if decide (key = "arguments") then
        ∃ r items1, getProp node "arguments" = VArray r items1 ∧
                    elementwise_equal items1 items2
      else StrictEq (getProp node key) expected
  | _ => StrictEq (getProp node key) expected
  end.

(** Document order on positions: a node comes before the nodes below it,
    and the subtree of an earlier sibling before that of a later one. *)
Inductive doc_lt : list nat → list nat → Prop :=
| doc_lt_below i p : doc_lt [] (i :: p)
| doc_lt_sibling i j p q : i < j → doc_lt (i :: p) (j :: q)
| doc_lt_inside i p q : doc_lt p q → doc_lt (i :: p) (i :: q).

(** A node without the contents of its [body]: its kind and all its other
    fields. *)
Definition shell (node : ASTNode) : ASTNode := with_body node [].

(** The four mutators share one shape, with the array operation [op]. *)
Definition mutate (op : list (option ASTNode) → nat → list (option ASTNode))
    (rootAST : option ASTNode) (path : NodePath) : option ASTNode :=
  match last (np_path path) with
  | None => rootAST
  | Some lastPath =>
      match getNodeAtPath rootAST (parent_path (np_path path)) with
      | Some parent =>
          match node_body parent with
          | Some body =>
              write_body rootAST (parent_path (np_path path))
                (op body (pi_index lastPath))
          | None => rootAST
          end
      | None => rootAST
      end
  end.

(** The traversal the specification describes: pre-order through every
    ordered child sequence, [body], [consequent] then [alternate],
    [commands] and [redirects]. *)
Definition command_subtree (c : CommandNode) : list ASTNode :=
  NCommand c :: map NRedirect (default [] (c_redirects c)).

Fixpoint spec_preorder (node : ASTNode) : list ASTNode :=
  let slots := λ body : list (option ASTNode),
    concat (map (λ slot, match slot with
                         | Some child => spec_preorder child
                         | None => []
                         end) body) in
  let nodes := λ l : list ASTNode, concat (map spec_preorder l) in
  match node with
  | NProgram _ body _ => node :: slots body
  | NCommand c => command_subtree c
  | NConditional _ _ consequent alternate _ =>
      node :: nodes consequent ++
      match alternate with Present alt => nodes alt | _ => [] end
  | NLoop _ _ _ _ body _ => node :: slots body
  | NFunction _ _ _ body _ => node :: slots body
  | NPipeline _ commands _ _ => node :: concat (map command_subtree commands)
  | NSubshell _ body _ => node :: slots body
  | NOther _ _ _ (Some body) _ => node :: slots body
  | _ => [node]
  end.

(** [find(K, {})] as the specification describes it. *)
Definition spec_find (ast : ASTNode) (K : string) : list ASTNode :=
  List.filter (λ node, String.eqb (node_type node) K) (spec_preorder ast).

(** The identities of the objects a node is built from: the node itself and
    every node below it, through each of its child sequences. *)
Definition objects (node : ASTNode) : list nat :=
  map node_oid (spec_preorder node).

(** [X] is fresh for the tree under [root]: [root] is a tree, [X] is a
    tree, and the two share no object.  Then a write into an array of the
    tree is seen at one place of the tree only, and putting [X] into the
    tree closes no cycle. *)
Definition fresh_for (root X : ASTNode) : Prop :=
  NoDup (objects root ++ objects X).

(** The handles of all the nodes the walk visits, in the order of the
    visits. *)
Definition visit (node : ASTNode) (path : list PathItem) : list NodePath :=
  walkAST node (λ n p collection, collection ++ [mkNodePath n p]) path [].

(** The handles of the nodes visited below a node, from its [body] taken
    from array index [index] on. *)
Fixpoint body_visits (body : list (option ASTNode)) (path : list PathItem)
    (index : nat) : list NodePath :=
  match body with
  | [] => []
  | None :: rest => body_visits rest path (index + 1)
  | Some child :: rest =>
      visit child (path ++ [mkPathItem child index]) ++
      body_visits rest path (index + 1)
  end.

(** A callback of the walk applied to a handle. *)
Definition call {S : Type} (callback : ASTNode → list PathItem → S → S)
    (s : S) (h : NodePath) : S :=
  callback (np_value h) (np_path h) s.

(** The test [findNodes] makes on a visited node. *)
Definition selected (nodeType : jsval) (filter : gmap string jsval)
    (h : NodePath) : bool :=
  strict_eq (VStr (node_type (np_value h))) nodeType
  && matchesFilter (np_value h) filter.

(** Document order on handles. *)
Definition handle_lt (h1 h2 : NodePath) : Prop :=
  doc_lt (path_indices (np_path h1)) (path_indices (np_path h2)).

(** The number of nodes reachable through [body] arrays. *)
Fixpoint node_size (node : ASTNode) : nat :=
  let slots := λ body : list (option ASTNode),
    list_sum (map (λ slot, match slot with
                           | Some child => node_size child
                           | None => 0
                           end) body) in
  match node with
  | NProgram _ body _ => S (slots body)
  | NLoop _ _ _ _ body _ => S (slots body)
  | NFunction _ _ _ body _ => S (slots body)
  | NSubshell _ body _ => S (slots body)
  | NOther _ _ _ (Some body) _ => S (slots body)
  | _ => 1
  end.

(** How many handles a query returns for the nodes held by a body. *)
Definition found_in (nodeType : jsval) (filter : gmap string jsval)
    (body : list (option ASTNode)) : nat :=
  list_sum (map (λ slot, match slot with
                         | Some child => length (findNodes child nodeType filter)
                         | None => 0
                         end) body).

(** The number of nodes reachable through [body], [consequent] and
    [alternate]: the nodes the generator descends into. *)
Fixpoint tree_size (node : ASTNode) : nat :=
  let slots := λ body : list (option ASTNode),
    list_sum (map (λ slot, match slot with
                           | Some child => tree_size child
                           | None => 0
                           end) body) in
  match node with
  | NProgram _ body _ => S (slots body)
  | NLoop _ _ _ _ body _ => S (slots body)
  | NFunction _ _ _ body _ => S (slots body)
  | NSubshell _ body _ => S (slots body)
  | NOther _ _ _ (Some body) _ => S (slots body)
  | NConditional _ _ consequent alternate _ =>
      S (list_sum (map tree_size consequent) +
         match alternate with
         | Present alt => list_sum (map tree_size alt)
         | _ => 0
         end)
  | _ => 1
  end.

(** The loop [children.forEach(child => this.walkNode(child, body, source))]
    for a converter [f] of one child. *)
Definition walk_each (f : RawNode → Conv (list ASTNode))
  : list RawNode → Conv (list ASTNode) :=
  fix walkEach (children : list RawNode) : Conv (list ASTNode) :=
    match children with
    | [] => mret []
    | child :: rest => xs ← f child; ys ← walkEach rest; mret (xs ++ ys)
    end.

(** [BashParser.extractBody] for a converter [f] of one child. *)
Definition extract_body (f : RawNode → Conv (list ASTNode))
    (b : option (one_or_many RawNode)) : Conv (list ASTNode) :=
  match b with
  | Some (Many children) => walk_each f children
  | Some (One child) => f child
  | None => mret []
  end.

(** The number of raw nodes [walkNode] descends into. *)
Fixpoint raw_size (node : RawNode) : nat :=
  let many := λ b : option (one_or_many RawNode),
    match b with
    | Some (Many children) => list_sum (map raw_size children)
    | Some (One child) => raw_size child
    | None => 0
    end in
  S (many (raw_body node) + many (raw_then node) + many (raw_else node)).

(** What the converter puts into a body: a node of one of the nine statement
    kinds it builds, with every field it sets present (a [for] loop has its
    variable, a [while] loop its condition, never [until]; flags are
    booleans; an absent [else] is [null]) and with bodies that are dense
    and hold such nodes again. *)
Fixpoint normalized (node : ASTNode) : bool :=
  let slots := λ body : list (option ASTNode),
    forallb (λ slot, match slot with
                     | Some child => normalized child
                     | None => false
                     end) body in
  match node with
  | NCommand _ => true
  | NVariable _ _ _ export readonly _ => bool_decide (is_Some export)
                                         && bool_decide (is_Some readonly)
  | NConditional _ _ consequent alternate _ =>
      forallb normalized consequent &&
      match alternate with
      | Undefined => false
      | Null => true
      | Present alt => forallb normalized alt
      end
  | NLoop _ kind variable condition body _ =>
      match kind with
      | KFor => bool_decide (is_Some variable)
      | KWhile => bool_decide (is_Some condition)
      | KUntil => false
      end && slots body
  | NFunction _ _ parameters body _ => bool_decide (is_Some parameters) && slots body
  | NPipeline _ _ negated _ => bool_decide (is_Some negated)
  | NSubshell _ body _ => slots body
  | NComment _ _ _ _ => true
  | NProgram _ _ _ => false
  | NRedirect _ => false
  | NOther _ _ _ _ _ => false
  end.

(** Raw nodes as the external parser is taken to build them: a [Command]
    with a name and arguments, and a [Script] holding children. *)
Definition raw_command (name : string) (args : list string) : RawNode :=
  mkRaw "Command" None (Some name) (Some args) None None None None None None
    None None None None None None None None None None.

Definition raw_script (children : list RawNode) : RawNode :=
  mkRaw "Script" None None None None None None None None None None None
    (Some (Many children)) None None None None None None None.

(** A command line: the name, then the arguments, separated by single
    spaces. *)
Definition command_line (name : string) (args : list string) : string :=
  match args with
  | [] => name
  | _ => name +:+ " " +:+ join " " args
  end.

(** ** A sample script

    [# setup], a subshell [(echo a; echo b)], and
    [if [ -f x ]; then echo yes; fi]. *)
Definition echo (oid : nat) (arg : string) : CommandNode :=
  mkCommand oid "echo" [arg] None None.

Definition sample_subshell : ASTNode :=
  NSubshell 2 [Some (NCommand (echo 3 "a")); Some (NCommand (echo 4 "b"))] None.

Definition sample_conditional : ASTNode :=
  NConditional 5 "[ -f x ]" [NCommand (echo 6 "yes")] Null None.

Definition sample_tree : ASTNode :=
  NProgram 0
    [Some (NComment 1 "setup" KLine None);
     Some sample_subshell;
     Some sample_conditional]
    None.

(** A subshell [(echo c; echo d)] built from objects of its own. *)
Definition sample_block : ASTNode :=
  NSubshell 20 [Some (NCommand (echo 21 "c")); Some (NCommand (echo 22 "d"))] None.

(** A second script, whose commands and redirect all sit outside [body]
    sequences: [if c; then echo then; else echo else; fi] and the pipeline
    [cat f >out]. *)
Definition sample_nested : ASTNode :=
  NProgram 10
    [Some (NConditional 11 "c" [NCommand (echo 12 "then")]
             (Present [NCommand (echo 13 "else")]) None);
     Some (NPipeline 14
             [mkCommand 15 "cat" ["f"] (Some [mkRedirect 16 ">" "out" None None])
                None]
             None None)]
    None.

(** What the external parser is taken to return for [npm install]: a
    [Script] holding one [Command]. *)
Definition raw_npm_install : RawNode :=
  mkRaw "Script" None None None None None None None None None None None
    (Some (Many
       [mkRaw "Command" None (Some "npm") (Some ["install"]) None None None
          None None None None None None None None None None None None None]))
    None None None None None None None.

(** The handle [find] returns for [echo b]: index 1 of the program, then
    index 1 of the subshell. *)
Definition sample_handle : NodePath :=
  mkNodePath (NCommand (echo 4 "b"))
    [mkPathItem sample_subshell 1; mkPathItem (NCommand (echo 4 "b")) 1].

(** * Properties *)

(** ** The sample script *)

Example sample_source :
  generateSource sample_tree default_options
  = "# setup" +:+ LF +:+ "(echo a; echo b)" +:+ LF +:+
    "if [ -f x ]; then" +:+ LF +:+ "  echo yes" +:+ LF +:+ "fi".
Proof. reflexivity. Qed.

Example sample_find :
  findNodes sample_tree (VStr "Command") ∅
  = [mkNodePath (NCommand (echo 3 "a"))
       [mkPathItem sample_subshell 1; mkPathItem (NCommand (echo 3 "a")) 0];
     sample_handle].
Proof. vm_compute. reflexivity. Qed.

(** A stale index past the end of the body makes the array sparse, and the
    empty slots print as empty lines. *)
Example sample_replace_past_end :
  let stale := mkNodePath sample_subshell [mkPathItem sample_subshell 4] in
  let root' := replaceNode (Some sample_tree) stale (NComment 9 "end" KLine None) in
  (node_body <$> root')
  = Some (Some [Some (NComment 1 "setup" KLine None); Some sample_subshell;
                Some sample_conditional; None;
                Some (NComment 9 "end" KLine None)])
  ∧ ((λ root, generateSource root default_options) <$> root')
    = Some ("# setup" +:+ LF +:+ "(echo a; echo b)" +:+ LF +:+
            "if [ -f x ]; then" +:+ LF +:+ "  echo yes" +:+ LF +:+ "fi" +:+
            LF +:+ LF +:+ "# end").
Proof. split; reflexivity. Qed.

(** ** Source generation *)

Lemma append_assoc (a b c : string) : (a +:+ b) +:+ c = a +:+ (b +:+ c).
Proof.
  induction a as [|ch a IH]; [done|].
  change (String ch ((a +:+ b) +:+ c) = String ch (a +:+ (b +:+ c))).
  by rewrite IH.
Qed.

Lemma known_kind_node_type (node : ASTNode) :
  known_kind (node_type node) = false → ∃ oid type unknown body loc,
    node = NOther oid type unknown body loc.
Proof. destruct node; simpl; try discriminate; eauto 10. Qed.

(** C7. A node whose kind is none of the kinds the generator knows renders
    as the empty string (the generator is a total function: nothing is
    raised), and a Comment renders as "# " followed by its value, for a
    line comment and for a block comment alike. *)
Theorem generator_unknown_and_comment
    (node : ASTNode) (options : SourceOptions)
    (oid : nat) (value : string) (kind : CommentKind) (loc : option Location)
    (Hunknown : known_kind (node_type node) = false) :
  astToSource node options = "" ∧
  generateSource node options = "" ∧
  astToSource (NComment oid value kind loc) options = "# " +:+ value ∧
  astToSource (NComment oid value KLine loc) options =
    astToSource (NComment oid value KBlock loc) options.
Proof.
  destruct (known_kind_node_type node Hunknown) as (o & t & u & b & l & ->).
  unfold generateSource. simpl. by destruct kind.
Qed.

Lemma generator_unknown_and_comment_witness :
  astToSource (NOther 1 "Heredoc" eq_refl None None) default_options = "" ∧
  generateSource (NOther 1 "Heredoc" eq_refl None None) default_options = "" ∧
  astToSource (NComment 2 "build step" KBlock None) default_options
    = "# " +:+ "build step" ∧
  astToSource (NComment 2 "build step" KLine None) default_options =
    astToSource (NComment 2 "build step" KBlock None) default_options.
Proof.
  apply (generator_unknown_and_comment
           (NOther 1 "Heredoc" eq_refl None None) default_options
           2 "build step" KBlock None).
  reflexivity.
Defined.

(** C8. A Variable renders as its name, "=", and its value, with "export "
    put in front when the export flag is set and then "readonly " put in
    front of that when the readonly flag is set: export is looked at first,
    so with both flags the text starts "readonly export ".  With only
    export set the text is "export name=value", with only readonly set it
    is "readonly name=value". *)
Theorem variable_rendering
    (oid : nat) (name value : string) (export readonly : option bool)
    (loc : option Location) (options : SourceOptions) :
  astToSource (NVariable oid name value export readonly loc) options =
    (if truthy readonly then "readonly " else "") +:+
    (if truthy export then "export " else "") +:+ name +:+ "=" +:+ value
  ∧ astToSource (NVariable oid name value (Some true) None loc) options
      = "export " +:+ name +:+ "=" +:+ value
  ∧ astToSource (NVariable oid name value (Some true) (Some false) loc) options
      = "export " +:+ name +:+ "=" +:+ value
  ∧ astToSource (NVariable oid name value None (Some true) loc) options
      = "readonly " +:+ name +:+ "=" +:+ value
  ∧ astToSource (NVariable oid name value (Some false) (Some true) loc) options
      = "readonly " +:+ name +:+ "=" +:+ value
  ∧ astToSource (NVariable oid name value None None loc) options
      = name +:+ "=" +:+ value
  ∧ astToSource (NVariable oid name value (Some true) (Some true) loc) options
      = "readonly export " +:+ name +:+ "=" +:+ value.
Proof.
  split; [|repeat split; reflexivity].
  simpl. destruct (truthy export), (truthy readonly); reflexivity.
Qed.

(** C10. A Loop of kind until renders as the empty string; of the three
    declared loop kinds only for and while produce any text. *)
Theorem until_loop_renders_empty
    (oid : nat) (variable condition : option string)
    (body : list (option ASTNode)) (loc : option Location)
    (options : SourceOptions) :
  astToSource (NLoop oid KUntil variable condition body loc) options = ""
  ∧ ∀ kind, astToSource (NLoop oid kind variable condition body loc) options ≠ ""
            ↔ kind = KFor ∨ kind = KWhile.
Proof.
  split; [reflexivity|].
  intros kind. destruct kind; simpl; split; intros H; try discriminate;
    try (by left); try (by right); try done.
  destruct H; discriminate.
Qed.

(** ** Normalizer *)

Example parse_npm_install :
  parse (λ _ _, Return raw_npm_install)
    (BashParser_options (mkParserOptions None None None)) "npm install" 0
  = Return (NProgram 0 [Some (NCommand (mkCommand 1 "npm" ["install"] None None))]
              None, 2).
Proof. reflexivity. Qed.

(** C9. When the external parser raises an error on a source text, [parse]
    fails: it throws an error whose message is "Failed to parse bash source: "
    followed by the parser's own message, and it returns no tree. *)
Theorem parse_failure_carries_message
    (parseBash : string → ParserOptions → outcome RawNode)
    (options : ParserOptions) (source : string) (e : JsError) (next : nat)
    (Hraises : parseBash source options = Throw e) :
  parse parseBash options source next
    = Throw (mkError ("Failed to parse bash source: " +:+ message e))
  ∧ (∃ prefix failure,
       parse parseBash options source next = Throw failure ∧
       message failure = prefix +:+ message e)
  ∧ ∀ result, parse parseBash options source next ≠ Return result.
Proof.
  assert (parse parseBash options source next
          = Throw (mkError ("Failed to parse bash source: " +:+ message e)))
    as Hparse.
  { unfold parse, try_catch. rewrite Hraises. reflexivity. }
  split; [exact Hparse|]. split.
  - exists "Failed to parse bash source: ", (mkError ("Failed to parse bash source: " +:+ message e)).
    split; [exact Hparse | reflexivity].
  - intros result. rewrite Hparse. discriminate.
Qed.

Lemma parse_failure_carries_message_witness :
  let parseBash : string → ParserOptions → outcome RawNode :=
    λ source _, if String.eqb source "if then" then
                  Throw (mkError "Unexpected token")
                else Return (mkRaw "Script" None None None None None None None
                               None None None None (Some (Many [])) None None
                               None None None None None) in
  let options := BashParser_options (mkParserOptions None None None) in
  parse parseBash options "if then" 0
    = Throw (mkError ("Failed to parse bash source: " +:+ "Unexpected token"))
  ∧ (∃ prefix failure,
       parse parseBash options "if then" 0 = Throw failure ∧
       message failure = prefix +:+ "Unexpected token")
  ∧ ∀ result, parse parseBash options "if then" 0 ≠ Return result.
Proof.
  intros parseBash options.
  apply (parse_failure_carries_message parseBash options "if then"
           (mkError "Unexpected token") 0).
  reflexivity.
Defined.

(** ** Path-addressed mutation *)

Lemma replaceNode_mutate rootAST path newNode :
  replaceNode rootAST path newNode
  = mutate (λ body index, array_set body index newNode) rootAST path.
Proof.
  unfold replaceNode, mutate. destruct (np_path path); reflexivity.
Qed.

Lemma insertBeforeNode_mutate rootAST path newNode :
  insertBeforeNode rootAST path newNode
  = mutate (λ body index, splice_insert body index newNode) rootAST path.
Proof.
  unfold insertBeforeNode, mutate. destruct (np_path path); reflexivity.
Qed.

Lemma insertAfterNode_mutate rootAST path newNode :
  insertAfterNode rootAST path newNode
  = mutate (λ body index, splice_insert body (index + 1) newNode) rootAST path.
Proof.
  unfold insertAfterNode, mutate. destruct (np_path path); reflexivity.
Qed.

Lemma removeNode_mutate rootAST path :
  removeNode rootAST path
  = mutate (λ body index, splice_remove body index) rootAST path.
Proof.
  unfold removeNode, mutate. destruct (np_path path); reflexivity.
Qed.

(** C3. On a handle whose captured path is empty (the root), replace,
    insertBefore, insertAfter, remove and prune leave the whole tree as it
    is; the operations are total, so nothing is raised. *)
Theorem empty_path_is_noop
    (rootAST : option ASTNode) (h : NodePath) (newNode : ASTNode)
    (Hroot : length (np_path h) = 0) :
  handle_replace h newNode rootAST = rootAST ∧
  handle_insertBefore h newNode rootAST = rootAST ∧
  handle_insertAfter h newNode rootAST = rootAST ∧
  handle_remove h rootAST = rootAST ∧
  handle_prune h rootAST = rootAST.
Proof.
  unfold handle_replace, handle_insertBefore, handle_insertAfter,
    handle_remove, handle_prune, pruneNode,
    replaceNode, insertBeforeNode, insertAfterNode, removeNode.
  simpl. rewrite Hroot. simpl. done.
Qed.

Lemma empty_path_is_noop_witness :
  let root := NProgram 0 [Some (NComment 1 "setup" KLine None)] None in
  let h := mkNodePath root [] in
  let newNode := NComment 2 "other" KLine None in
  handle_replace h newNode (Some root) = Some root ∧
  handle_insertBefore h newNode (Some root) = Some root ∧
  handle_insertAfter h newNode (Some root) = Some root ∧
  handle_remove h (Some root) = Some root ∧
  handle_prune h (Some root) = Some root.
Proof.
  intros root h newNode.
  apply (empty_path_is_noop (Some root) h newNode).
  reflexivity.
Defined.

(** ** Filter matching *)

Lemma strict_eq_spec (a b : jsval) : strict_eq a b = true ↔ StrictEq a b.
Proof.
  split.
  - destruct a, b; simpl; try discriminate; intros H.
    + constructor.
    + constructor.
    + apply Bool.eqb_prop in H as ->. constructor.
    + apply Z.eqb_eq in H as ->. constructor.
    + apply String.eqb_eq in H as ->. constructor.
    + apply bool_decide_eq_true in H as ->. constructor.
    + apply bool_decide_eq_true in H as ->. constructor.
  - intros []; simpl; auto using Bool.eqb_reflx, Z.eqb_refl, String.eqb_refl.
    + by apply bool_decide_eq_true.
    + by apply bool_decide_eq_true.
Qed.

Lemma every_indexed_spec (f : nat → jsval → bool) (items : list jsval) (k : nat) :
  forallb (λ p : nat * jsval, f p.1 p.2) (zip (seq k (length items)) items) = true
  ↔ ∀ i a, items !! i = Some a → f (k + i) a = true.
Proof.
  revert k. induction items as [|x items IH]; intros k; simpl.
  - split; [intros _ i a H; discriminate | done].
  - rewrite andb_true_iff, IH. split.
    + intros [Hx Hrest] [|i] a Hi; simpl in Hi.
      * injection Hi as <-. by rewrite Nat.add_0_r.
      * replace (k + S i) with (S k + i) by lia. by apply Hrest.
    + intros H. split.
      * specialize (H 0 x eq_refl). by rewrite Nat.add_0_r in H.
      * intros i a Hi. replace (S k + i) with (k + S i) by lia. by apply H.
Qed.

Lemma arraysEqual_spec (arr1 arr2 : jsval) :
  arraysEqual arr1 arr2 = true
  ↔ ∃ r1 items1 r2 items2,
      arr1 = VArray r1 items1 ∧ arr2 = VArray r2 items2 ∧
      elementwise_equal items1 items2.
Proof.
  unfold arraysEqual, elementwise_equal. split.
  - destruct arr1 as [| | | | | |r1 items1|]; try discriminate.
    destruct arr2 as [| | | | | |r2 items2|]; try discriminate.
    destruct (length items1 =? length items2) eqn:Hlen; simpl; [|discriminate].
    apply Nat.eqb_eq in Hlen. intros Hall.
    exists r1, items1, r2, items2. repeat split; [done|].
    intros i a b Ha Hb.
    pose proof (proj1 (every_indexed_spec
                         (λ i a, strict_eq a (item_at items2 i)) items1 0) Hall
                  i a Ha) as Hi.
    simpl in Hi. unfold item_at in Hi. rewrite Hb in Hi. simpl in Hi.
    by apply strict_eq_spec.
  - intros (r1 & items1 & r2 & items2 & -> & -> & Hlen & Hall).
    apply Nat.eqb_eq in Hlen as Hlen'. rewrite Hlen'. simpl.
    apply (every_indexed_spec (λ i a, strict_eq a (item_at items2 i)) items1 0).
    intros i a Ha. simpl. unfold item_at.
    destruct (items2 !! i) as [b|] eqn:Hb.
    + simpl. apply strict_eq_spec. by eapply Hall.
    + apply lookup_ge_None in Hb. apply lookup_lt_Some in Ha. lia.
Qed.

Lemma object_keys (filter : gmap string jsval) (key : string) :
  In key (map fst (map_to_list filter)) ↔ ∃ expected, filter !! key = Some expected.
Proof.
  rewrite in_map_iff. split.
  - intros ([k v] & <- & Hin). exists v. simpl.
    apply elem_of_map_to_list. by apply list_elem_of_In.
  - intros (v & Hv). exists (key, v). split; [done|].
    apply list_elem_of_In. by apply elem_of_map_to_list.
Qed.

Lemma entry_matches_decide (node : ASTNode) (key : string) (expected : jsval) :
  (if String.eqb key "arguments" && isArray expected
   then arraysEqual (getProp node "arguments") expected
   else strict_eq (getProp node key) expected) = true
  ↔ entry_matches node key expected.
Proof.
  unfold entry_matches.
  destruct (String.eqb key "arguments") eqn:Hkey; simpl.
  - apply String.eqb_eq in Hkey as ->.
    destruct expected; simpl; try apply strict_eq_spec.
    rewrite arraysEqual_spec. split.
    + intros (r1 & items1 & r2 & items2 & H1 & H2 & Heq).
      injection H2 as <- <-. eauto.
    + intros (r1 & items1 & H1 & Heq). eauto 10.
  - apply String.eqb_neq in Hkey.
    destruct expected; simpl; try apply strict_eq_spec.
    try case_decide; try done. apply strict_eq_spec.
Qed.

Lemma matchesFilter_spec (node : ASTNode) (filter : gmap string jsval) :
  matchesFilter node filter = true
  ↔ ∀ key expected, filter !! key = Some expected →
                    entry_matches node key expected.
Proof.
  unfold matchesFilter. rewrite forallb_forall. split.
  - intros H key expected Hkey.
    assert (In key (map fst (map_to_list filter))) as Hin
      by (apply object_keys; eauto).
    specialize (H key Hin). simpl in H. rewrite Hkey in H. simpl in H.
    by apply entry_matches_decide.
  - intros H key Hin. apply object_keys in Hin as [expected Hkey].
    simpl. rewrite Hkey. simpl. apply entry_matches_decide. by apply H.
Qed.

Lemma matchesFilter_empty (node : ASTNode) : matchesFilter node ∅ = true.
Proof.
  apply matchesFilter_spec. intros key expected Hkey.
  by rewrite lookup_empty in Hkey.
Qed.

(** C2. A filter matches a node exactly when every entry of the filter
    record is met by the node: an entry is met by a strictly equal value
    under its key, except an entry [arguments] holding a sequence, which is
    met when the node's argument sequence has the same length and pairwise
    strictly equal elements; whether the two sequences are the same object
    plays no part.  The empty filter matches every node, so with it [find]
    selects by kind alone. *)
Theorem filter_matching (node : ASTNode) (filter : gmap string jsval) :
  (matchesFilter node filter = true
   ↔ ∀ key expected, filter !! key = Some expected →
                     entry_matches node key expected)
  ∧ matchesFilter node ∅ = true
  ∧ (∀ nodeType,
       strict_eq (VStr (node_type node)) nodeType && matchesFilter node ∅
       = strict_eq (VStr (node_type node)) nodeType)
  ∧ ∀ (c : CommandNode) (r : ref) (items : list jsval),
      matchesFilter (NCommand c) {["arguments" := VArray r items]} = true
      ↔ elementwise_equal (map VStr (c_arguments c)) items.
Proof.
  split; [apply matchesFilter_spec|]. split; [apply matchesFilter_empty|]. split.
  - intros nodeType. rewrite matchesFilter_empty. apply andb_true_r.
  - intros c r items. rewrite matchesFilter_spec. split.
    + intros H. specialize (H "arguments" (VArray r items)).
      rewrite lookup_singleton_eq in H. specialize (H eq_refl).
      destruct H as (r0 & items1 & Hprop & Heq).
      cbv [entry_matches getProp own_prop v_strings] in Hprop. simpl in Hprop.
      by injection Hprop as _ <-.
    + intros Heq key expected Hkey.
      apply lookup_singleton_Some in Hkey as [<- <-].
      exists (RProp (c_oid c) "arguments"), (map VStr (c_arguments c)).
      split; [reflexivity | exact Heq].
Qed.

Lemma filter_matching_witness :
  let filter : gmap string jsval :=
    {["name" := VStr "echo"; "arguments" := VArray (RHeap 0) [VStr "b"]]} in
  matchesFilter (NCommand (echo 4 "b")) filter = true ∧
  entry_matches (NCommand (echo 4 "b")) "arguments" (VArray (RHeap 0) [VStr "b"]).
Proof.
  intros filter.
  assert (matchesFilter (NCommand (echo 4 "b")) filter = true) as Hmatch
    by (vm_compute; reflexivity).
  split; [exact Hmatch|].
  destruct (filter_matching (NCommand (echo 4 "b")) filter) as (Hiff & _).
  apply (proj1 Hiff Hmatch). vm_compute. reflexivity.
Defined.

(** ** Resolution and in-place writes *)

Lemma node_body_with_body node body body' :
  node_body node = Some body → node_body (with_body node body') = Some body'.
Proof. destruct node as [| | | | | | | | | |? ? ? [?|] ?]; simpl; congruence. Qed.

Lemma with_body_twice node body1 body2 :
  with_body (with_body node body1) body2 = with_body node body2.
Proof. destruct node as [| | | | | | | | | |? ? ? [?|] ?]; reflexivity. Qed.

Lemma shell_with_body node body' : shell (with_body node body') = shell node.
Proof. apply with_body_twice. Qed.

Lemma body_at_lt body index child :
  body_at body index = Some child → index < length body.
Proof.
  unfold body_at. intros H. apply lookup_lt_is_Some.
  destruct (body !! index); [eauto | discriminate].
Qed.

Lemma body_at_insert_eq body index slot :
  index < length body → body_at (<[index := slot]> body) index = slot.
Proof. intros H. unfold body_at. by rewrite list_lookup_insert_eq. Qed.

Lemma body_at_insert_ne body i j slot :
  i ≠ j → body_at (<[i := slot]> body) j = body_at body j.
Proof. intros H. unfold body_at. by rewrite list_lookup_insert_ne. Qed.

Lemma getNodeFrom_None path : getNodeFrom None path = None.
Proof. by destruct path. Qed.

Lemma getNodeFrom_app current p q :
  getNodeFrom current (p ++ q) = getNodeFrom (getNodeFrom current p) q.
Proof.
  revert current. induction p as [|x p IH]; intros current; [done|].
  simpl. destruct current as [node|]; [|by rewrite getNodeFrom_None].
  destruct (node_body node); [apply IH | by rewrite getNodeFrom_None].
Qed.

Lemma getNodeFrom_indices current q q' :
  path_indices q = path_indices q' →
  getNodeFrom current q = getNodeFrom current q'.
Proof.
  revert current q'. induction q as [|x q IH]; intros current [|y q'] H;
    try discriminate; [done|].
  injection H as Hxy Hq. simpl. rewrite Hxy.
  destruct current as [node|]; [|done].
  destruct (node_body node); [by apply IH | done].
Qed.

(** The node at a position above the written array is the old node with
    the write carried out below it. *)
Lemma store_above root q r a body' :
  getNodeFrom (Some root) q = Some a →
  getNodeFrom (Some (storeBody root (q ++ r) body')) q
  = Some (storeBody a r body').
Proof.
  revert root. induction q as [|x q IH]; intros root Ha; simpl in *.
  - congruence.
  - destruct (node_body root) as [body|] eqn:Hbody; [|discriminate].
    destruct (body_at body (pi_index x)) as [child|] eqn:Hchild;
      [|by rewrite getNodeFrom_None in Ha].
    erewrite node_body_with_body by done.
    rewrite body_at_insert_eq by (by eapply body_at_lt).
    by apply IH.
Qed.

Lemma store_resolve root pp parent body' :
  getNodeFrom (Some root) pp = Some parent →
  getNodeFrom (Some (storeBody root pp body')) pp = Some (with_body parent body').
Proof.
  intros H. pose proof (store_above root pp [] parent body' H) as Habove.
  by rewrite app_nil_r in Habove.
Qed.

(** Positions that neither lie on the path to the written array nor below
    it resolve as before. *)
Lemma store_frame root pp q body' :
  ¬ path_indices pp `prefix_of` path_indices q →
  ¬ path_indices q `prefix_of` path_indices pp →
  getNodeFrom (Some (storeBody root pp body')) q = getNodeFrom (Some root) q.
Proof.
  revert root q. induction pp as [|x pp IH]; intros root q Hpq Hqp.
  - exfalso. apply Hpq. apply prefix_nil.
  - destruct q as [|y q]; [exfalso; apply Hqp; apply prefix_nil|].
    simpl in *.
    destruct (node_body root) as [body|] eqn:Hbody; simpl; [|by rewrite Hbody].
    destruct (body_at body (pi_index x)) as [child|] eqn:Hchild;
      simpl; [|by rewrite Hbody].
    erewrite node_body_with_body by done.
    destruct (decide (pi_index x = pi_index y)) as [Heq|Hne].
    + rewrite <- Heq.
      rewrite body_at_insert_eq by (by eapply body_at_lt).
      rewrite Hchild. apply IH.
      * intros Hp. apply Hpq. rewrite Heq. by apply prefix_cons.
      * intros Hp. apply Hqp. rewrite Heq. by apply prefix_cons.
    + by rewrite body_at_insert_ne.
Qed.

Lemma store_store root pp body1 body2 :
  storeBody (storeBody root pp body1) pp body2 = storeBody root pp body2.
Proof.
  revert root. induction pp as [|x pp IH]; intros root; simpl.
  - apply with_body_twice.
  - destruct (node_body root) as [body|] eqn:Hbody; [|by rewrite Hbody].
    destruct (body_at body (pi_index x)) as [child|] eqn:Hchild;
      [|by rewrite Hbody, Hchild].
    erewrite node_body_with_body by done.
    rewrite body_at_insert_eq by (by eapply body_at_lt).
    by rewrite with_body_twice, list_insert_insert_eq, IH.
Qed.

Lemma shell_storeBody a r body' : shell (storeBody a r body') = shell a.
Proof.
  destruct r as [|x r]; simpl; [apply shell_with_body|].
  destruct (node_body a); [|done].
  destruct (body_at _ _); [apply shell_with_body | done].
Qed.

(** Above the written array, bodies keep their length. *)
Lemma storeBody_body_length a x r body' l :
  node_body a = Some l →
  ∃ l', node_body (storeBody a (x :: r) body') = Some l' ∧ length l' = length l.
Proof.
  intros Hl. simpl. rewrite Hl.
  destruct (body_at l (pi_index x)); [|eauto].
  eexists. split; [by eapply node_body_with_body | by rewrite length_insert].
Qed.

Lemma parent_path_snoc pp lastPath : parent_path (pp ++ [lastPath]) = pp.
Proof.
  unfold parent_path. rewrite length_app. simpl.
  replace (length pp + 1 - 1) with (length pp) by lia.
  apply take_app_length.
Qed.

(** What a mutator does on a path whose parent resolves to a node with a
    [body] array. *)
Lemma mutate_resolved op root h pp lastPath parent body :
  np_path h = pp ++ [lastPath] →
  getNodeAtPath (Some root) pp = Some parent →
  node_body parent = Some body →
  mutate op (Some root) h
  = Some (storeBody root pp (op body (pi_index lastPath))).
Proof.
  intros Hpath Hparent Hbody. unfold mutate.
  rewrite Hpath, last_snoc, parent_path_snoc, Hparent, Hbody. reflexivity.
Qed.

Lemma splice_insert_lookup body start x j :
  start ≤ length body →
  splice_insert body start x !! j
  = if decide (j < start) then body !! j
    else if decide (j = start) then Some (Some x)
    else body !! (j - 1).
Proof.
  intros Hstart. unfold splice_insert.
  assert (length (take start body) = start) as Htake
    by (rewrite length_take; lia).
  destruct (decide (j < start)) as [Hlt|Hge].
  - rewrite lookup_app_l by lia. by apply lookup_take_lt.
  - rewrite lookup_app_r by lia. rewrite Htake.
    destruct (decide (j = start)) as [->|Hne].
    + by rewrite Nat.sub_diag.
    + destruct (j - start) as [|k] eqn:Hk; [lia|]. simpl.
      rewrite lookup_drop. f_equal. lia.
Qed.

Lemma splice_insert_length body start x :
  length (splice_insert body start x) = length body + 1.
Proof.
  unfold splice_insert. rewrite length_app. simpl.
  rewrite length_take, length_drop. lia.
Qed.

(** A position strictly below [pp], given by its indices. *)
Lemma below_parent pp q j k :
  path_indices q = path_indices pp ++ j :: k →
  ∃ y q', pi_index y = j ∧ path_indices q' = k ∧
          ∀ current, getNodeFrom current q
                     = getNodeFrom (getNodeFrom current pp) (y :: q').
Proof.
  intros Hq.
  assert (path_indices (take (length pp) q) = path_indices pp) as Htake.
  { unfold path_indices in *. rewrite <- firstn_map, Hq.
    rewrite <- (length_map pi_index pp). apply take_app_length. }
  assert (path_indices (drop (length pp) q) = j :: k) as Hdrop.
  { unfold path_indices in *. rewrite <- skipn_map, Hq.
    rewrite <- (length_map pi_index pp). apply drop_app_length. }
  destruct (drop (length pp) q) as [|y q'] eqn:Hrest; [discriminate|].
  injection Hdrop as Hy Hq'.
  exists y, q'. split; [done|]. split; [done|].
  intros current. rewrite <- (take_drop (length pp) q) at 1.
  rewrite Hrest, getNodeFrom_app.
  by rewrite (getNodeFrom_indices _ _ _ Htake).
Qed.

(** A position on the way to [pp], given by its indices. *)
Lemma above_parent pp q :
  path_indices q `prefix_of` path_indices pp →
  ∃ q0 r, pp = q0 ++ r ∧ path_indices q0 = path_indices q.
Proof.
  intros [k Hk]. exists (take (length q) pp), (drop (length q) pp).
  split; [by rewrite take_drop|].
  unfold path_indices in *. rewrite <- firstn_map, Hk.
  rewrite <- (length_map pi_index q). apply take_app_length.
Qed.

Lemma replace_resolved root h pp lastPath parent body newNode :
  np_path h = pp ++ [lastPath] →
  getNodeAtPath (Some root) pp = Some parent →
  node_body parent = Some body →
  pi_index lastPath < length body →
  handle_replace h newNode (Some root)
  = Some (storeBody root pp (<[pi_index lastPath := Some newNode]> body)).
Proof.
  intros Hpath Hparent Hbody Hindex.
  unfold handle_replace. rewrite replaceNode_mutate.
  erewrite mutate_resolved by done.
  unfold array_set. by rewrite decide_True.
Qed.

(** Writing one slot of the [body] array found at [pp]: the positions that
    do not pass through that slot and are not on the way to it resolve as
    before. *)
Lemma slot_write_frame root pp parent body i slot q :
  getNodeFrom (Some root) pp = Some parent →
  node_body parent = Some body →
  ¬ (path_indices pp ++ [i]) `prefix_of` path_indices q →
  ¬ path_indices q `prefix_of` path_indices pp →
  getNodeFrom (Some (storeBody root pp (<[i := slot]> body))) q
  = getNodeFrom (Some root) q.
Proof.
  intros Hparent Hbody Hslot Habove.
  destruct (decide (path_indices pp `prefix_of` path_indices q)) as [[k Hk]|Hoff];
    [|by apply store_frame].
  destruct k as [|j k].
  { exfalso. apply Habove. rewrite Hk, app_nil_r. done. }
  destruct (below_parent pp q j k Hk) as (y & q' & Hy & _ & Hq).
  rewrite !Hq. erewrite store_resolve by done. rewrite Hparent. simpl.
  erewrite node_body_with_body by done. rewrite Hbody, Hy.
  rewrite body_at_insert_ne; [done|].
  intros ->. apply Hslot. rewrite Hk. exists k. by rewrite <- app_assoc.
Qed.

(** C5. On a handle whose path resolves (its parent is reached from the
    root, has a body, and the captured index lies within it), replace puts
    the new node in exactly the addressed slot: the path then resolves to
    the new node; the parent keeps its other slots and all its other
    fields; every position that is neither on the way to the slot nor
    inside it resolves to what it did; the nodes on the way keep their
    fields and the length of their bodies.  Replacing again with a second
    node gives the tree that replacing with the second node alone gives,
    and the path then resolves to the second node. *)
Theorem replace_overwrites_addressed_slot
    (root : ASTNode) (h : NodePath) (pp : list PathItem) (lastPath : PathItem)
    (parent : ASTNode) (body : list (option ASTNode)) (N1 N2 : ASTNode)
    (Hpath : np_path h = pp ++ [lastPath])
    (Hparent : getNodeAtPath (Some root) pp = Some parent)
    (Hbody : node_body parent = Some body)
    (Hindex : pi_index lastPath < length body) :
  ∃ root' parent',
    handle_replace h N1 (Some root) = Some root' ∧
    getNodeAtPath (Some root') (np_path h) = Some N1 ∧
    getNodeAtPath (Some root') pp = Some parent' ∧
    shell parent' = shell parent ∧
    node_body parent' = Some (<[pi_index lastPath := Some N1]> body) ∧
    (∀ q, ¬ path_indices (np_path h) `prefix_of` path_indices q →
          ¬ path_indices q `prefix_of` path_indices pp →
          getNodeAtPath (Some root') q = getNodeAtPath (Some root) q) ∧
    (∀ q, path_indices q `prefix_of` path_indices pp →
          ∃ a a' l l',
            getNodeAtPath (Some root) q = Some a ∧
            getNodeAtPath (Some root') q = Some a' ∧
            shell a' = shell a ∧
            node_body a = Some l ∧ node_body a' = Some l' ∧
            length l' = length l) ∧
    handle_replace h N2 (Some root') = handle_replace h N2 (Some root) ∧
    getNodeAtPath (handle_replace h N2 (Some root')) (np_path h) = Some N2.
Proof.
  set (i := pi_index lastPath) in *.
  set (write := λ N : ASTNode, storeBody root pp (<[i := Some N]> body)).
  assert (∀ N, handle_replace h N (Some root) = Some (write N)) as Hreplace
    by (intros N; by eapply replace_resolved).
  assert (∀ N, getNodeAtPath (Some (write N)) pp
               = Some (with_body parent (<[i := Some N]> body))) as Hres
    by (intros N; by apply store_resolve).
  assert (∀ N, getNodeAtPath (Some (write N)) (np_path h) = Some N) as Hslot.
  { intros N. unfold getNodeAtPath in *.
    rewrite Hpath, getNodeFrom_app, Hres. simpl.
    erewrite node_body_with_body by done. by rewrite body_at_insert_eq. }
  exists (write N1), (with_body parent (<[i := Some N1]> body)).
  split; [apply Hreplace|]. split; [apply Hslot|]. split; [apply Hres|].
  split; [apply shell_with_body|].
  split; [by eapply node_body_with_body|]. split; [|split; [|split]].
  - intros q Hq1 Hq2. unfold getNodeAtPath, write.
    apply (slot_write_frame root pp parent body); try done.
    intros Hp. apply Hq1. rewrite Hpath. unfold path_indices in *.
    by rewrite map_app.
  - intros q Hq. destruct (above_parent pp q Hq) as (q0 & r & Hpp & Hq0).
    unfold getNodeAtPath in *.
    rewrite !(getNodeFrom_indices _ q q0) by done.
    destruct (getNodeFrom (Some root) q0) as [a|] eqn:Ha.
    2:{ rewrite Hpp, getNodeFrom_app, Ha, getNodeFrom_None in Hparent.
        discriminate. }
    assert (getNodeFrom (Some a) r = Some parent) as Hr
      by (by rewrite Hpp, getNodeFrom_app, Ha in Hparent).
    assert (getNodeFrom (Some (write N1)) q0
            = Some (storeBody a r (<[i := Some N1]> body))) as Ha'
      by (unfold write; rewrite Hpp; by apply store_above).
    destruct r as [|x r].
    + simpl in Hr. injection Hr as ->.
      exists parent, (with_body parent (<[i := Some N1]> body)),
        body, (<[i := Some N1]> body).
      rewrite Ha'. simpl. repeat split; try done.
      * apply shell_with_body.
      * by eapply node_body_with_body.
      * apply length_insert.
    + destruct (node_body a) as [l|] eqn:Hl; [|by simpl in Hr; rewrite Hl in Hr].
      destruct (storeBody_body_length a x r (<[i := Some N1]> body) l Hl)
        as (l' & Hl' & Hlen).
      exists a, (storeBody a (x :: r) (<[i := Some N1]> body)), l, l'.
      rewrite Ha'. repeat split; try done. apply shell_storeBody.
  - rewrite Hreplace.
    rewrite (replace_resolved (write N1) h pp lastPath
               (with_body parent (<[i := Some N1]> body))
               (<[i := Some N1]> body) N2 Hpath (Hres N1)).
    + unfold write, i. by rewrite store_store, list_insert_insert_eq.
    + by eapply node_body_with_body.
    + by rewrite length_insert.
  - rewrite (replace_resolved (write N1) h pp lastPath
               (with_body parent (<[i := Some N1]> body))
               (<[i := Some N1]> body) N2 Hpath (Hres N1)).
    + specialize (Hslot N2). unfold write, i in *.
      by rewrite store_store, list_insert_insert_eq.
    + by eapply node_body_with_body.
    + by rewrite length_insert.
Qed.

Lemma insertBefore_resolved root h pp lastPath parent body newNode :
  np_path h = pp ++ [lastPath] →
  getNodeAtPath (Some root) pp = Some parent →
  node_body parent = Some body →
  handle_insertBefore h newNode (Some root)
  = Some (storeBody root pp (splice_insert body (pi_index lastPath) newNode)).
Proof.
  intros Hpath Hparent Hbody.
  unfold handle_insertBefore. rewrite insertBeforeNode_mutate.
  by erewrite mutate_resolved.
Qed.

Lemma insertAfter_resolved root h pp lastPath parent body newNode :
  np_path h = pp ++ [lastPath] →
  getNodeAtPath (Some root) pp = Some parent →
  node_body parent = Some body →
  handle_insertAfter h newNode (Some root)
  = Some (storeBody root pp (splice_insert body (pi_index lastPath + 1) newNode)).
Proof.
  intros Hpath Hparent Hbody.
  unfold handle_insertAfter. rewrite insertAfterNode_mutate.
  by erewrite mutate_resolved.
Qed.

(** C4. On a handle whose path resolves to index i of its parent's body,
    insertBefore(X) leaves X at index i, what was at i at index i+1 (and,
    likewise, everything from i on one place further), and the elements
    before i where they were; insertAfter(X) leaves X at index i+1, just
    after the element at i, which stays with all the elements before it,
    and moves what came after it one place further. *)
Theorem insert_splices_at_captured_index
    (root : ASTNode) (h : NodePath) (pp : list PathItem) (lastPath : PathItem)
    (parent : ASTNode) (body : list (option ASTNode)) (X : ASTNode)
    (Hpath : np_path h = pp ++ [lastPath])
    (Hparent : getNodeAtPath (Some root) pp = Some parent)
    (Hbody : node_body parent = Some body)
    (Hindex : pi_index lastPath < length body) :
  let i := pi_index lastPath in
  (∃ root' parent' body',
     handle_insertBefore h X (Some root) = Some root' ∧
     getNodeAtPath (Some root') pp = Some parent' ∧
     shell parent' = shell parent ∧
     node_body parent' = Some body' ∧
     body' = take i body ++ Some X :: drop i body ∧
     body' !! i = Some (Some X) ∧
     body' !! (i + 1) = body !! i ∧
     (∀ j, j < i → body' !! j = body !! j) ∧
     (∀ j, i ≤ j → body' !! (j + 1) = body !! j) ∧
     getNodeAtPath (Some root') (np_path h) = Some X ∧
     getNodeAtPath (Some root') (pp ++ [mkPathItem (pi_node lastPath) (i + 1)])
       = getNodeAtPath (Some root) (np_path h))
  ∧
  (∃ root' parent' body',
     handle_insertAfter h X (Some root) = Some root' ∧
     getNodeAtPath (Some root') pp = Some parent' ∧
     shell parent' = shell parent ∧
     node_body parent' = Some body' ∧
     body' = take (i + 1) body ++ Some X :: drop (i + 1) body ∧
     body' !! (i + 1) = Some (Some X) ∧
     (∀ j, j ≤ i → body' !! j = body !! j) ∧
     (∀ j, i < j → body' !! (j + 1) = body !! j) ∧
     getNodeAtPath (Some root') (np_path h)
       = getNodeAtPath (Some root) (np_path h) ∧
     getNodeAtPath (Some root') (pp ++ [mkPathItem (pi_node lastPath) (i + 1)])
       = Some X).
Proof.
  intros i.
  assert (∀ root' parent' body' (item : PathItem),
            getNodeAtPath (Some root') pp = Some parent' →
            node_body parent' = Some body' →
            getNodeAtPath (Some root') (pp ++ [item])
            = mjoin (body' !! pi_index item)) as Hchild.
  { intros root' parent' body' item Hp Hb. unfold getNodeAtPath in *.
    rewrite getNodeFrom_app, Hp. simpl. by rewrite Hb. }
  split.
  - exists (storeBody root pp (splice_insert body i X)),
      (with_body parent (splice_insert body i X)), (splice_insert body i X).
    assert (∀ j, splice_insert body i X !! j
                 = if decide (j < i) then body !! j
                   else if decide (j = i) then Some (Some X)
                   else body !! (j - 1)) as Hlookup
      by (intros j; apply splice_insert_lookup; lia).
    assert (getNodeAtPath
              (Some (storeBody root pp (splice_insert body i X))) pp
            = Some (with_body parent (splice_insert body i X))) as Hres
      by (by apply store_resolve).
    assert (node_body (with_body parent (splice_insert body i X))
            = Some (splice_insert body i X)) as Hnew
      by (by eapply node_body_with_body).
    split; [by eapply insertBefore_resolved|]. split; [exact Hres|].
    split; [apply shell_with_body|]. split; [exact Hnew|].
    split; [reflexivity|].
    assert (splice_insert body i X !! i = Some (Some X)) as Hi.
    { rewrite Hlookup. rewrite decide_False by lia. by rewrite decide_True. }
    assert (splice_insert body i X !! (i + 1) = body !! i) as Hi1.
    { rewrite Hlookup. rewrite !decide_False by lia. f_equal. lia. }
    split; [exact Hi|]. split; [exact Hi1|]. split; [|split; [|split]].
    + intros j Hj. rewrite Hlookup. by rewrite decide_True.
    + intros j Hj. rewrite Hlookup. rewrite !decide_False by lia. f_equal. lia.
    + rewrite Hpath. rewrite (Hchild _ _ _ lastPath Hres Hnew).
      fold i. by rewrite Hi.
    + rewrite (Hchild _ _ _ _ Hres Hnew). simpl. rewrite Hi1.
      rewrite Hpath. by rewrite (Hchild _ _ _ lastPath Hparent Hbody).
  - exists (storeBody root pp (splice_insert body (i + 1) X)),
      (with_body parent (splice_insert body (i + 1) X)),
      (splice_insert body (i + 1) X).
    assert (∀ j, splice_insert body (i + 1) X !! j
                 = if decide (j < i + 1) then body !! j
                   else if decide (j = i + 1) then Some (Some X)
                   else body !! (j - 1)) as Hlookup
      by (intros j; apply splice_insert_lookup; lia).
    assert (getNodeAtPath
              (Some (storeBody root pp (splice_insert body (i + 1) X))) pp
            = Some (with_body parent (splice_insert body (i + 1) X))) as Hres
      by (by apply store_resolve).
    assert (node_body (with_body parent (splice_insert body (i + 1) X))
            = Some (splice_insert body (i + 1) X)) as Hnew
      by (by eapply node_body_with_body).
    split; [by eapply insertAfter_resolved|]. split; [exact Hres|].
    split; [apply shell_with_body|]. split; [exact Hnew|].
    split; [reflexivity|].
    assert (splice_insert body (i + 1) X !! (i + 1) = Some (Some X)) as Hi1.
    { rewrite Hlookup. rewrite decide_False by lia. by rewrite decide_True. }
    assert (splice_insert body (i + 1) X !! i = body !! i) as Hi.
    { rewrite Hlookup. by rewrite decide_True by lia. }
    split; [exact Hi1|]. split; [|split; [|split]].
    + intros j Hj. rewrite Hlookup. by rewrite decide_True by lia.
    + intros j Hj. rewrite Hlookup. rewrite !decide_False by lia. f_equal. lia.
    + rewrite Hpath. rewrite (Hchild _ _ _ lastPath Hres Hnew).
      fold i. rewrite Hi. by rewrite (Hchild _ _ _ lastPath Hparent Hbody).
    + rewrite (Hchild _ _ _ _ Hres Hnew). simpl. by rewrite Hi1.
Qed.

Lemma remove_resolved root h pp lastPath parent body :
  np_path h = pp ++ [lastPath] →
  getNodeAtPath (Some root) pp = Some parent →
  node_body parent = Some body →
  handle_remove h (Some root)
  = Some (storeBody root pp (splice_remove body (pi_index lastPath))).
Proof.
  intros Hpath Hparent Hbody.
  unfold handle_remove. rewrite removeNode_mutate.
  by erewrite mutate_resolved.
Qed.

(** C6. prune does exactly what remove does: on every handle and every
    tree the two leave the same tree.  Nothing is cleaned up beyond the
    removal: when the path resolves, the parent stays where it was with all
    its fields, its body being the old one without the addressed slot (be
    it then empty), and the positions that are neither on the way to the
    parent nor below it resolve as before. *)
Theorem prune_equals_remove (rootAST : option ASTNode) (h : NodePath) :
  handle_prune h rootAST = handle_remove h rootAST ∧
  pruneNode rootAST h = removeNode rootAST h ∧
  ∀ root pp lastPath parent body,
    rootAST = Some root →
    np_path h = pp ++ [lastPath] →
    getNodeAtPath (Some root) pp = Some parent →
    node_body parent = Some body →
    ∃ root' parent',
      handle_prune h rootAST = Some root' ∧
      getNodeAtPath (Some root') pp = Some parent' ∧
      shell parent' = shell parent ∧
      node_body parent'
        = Some (take (pi_index lastPath) body ++ drop (pi_index lastPath + 1) body) ∧
      ∀ q, ¬ path_indices pp `prefix_of` path_indices q →
           ¬ path_indices q `prefix_of` path_indices pp →
           getNodeAtPath (Some root') q = getNodeAtPath (Some root) q.
Proof.
  split; [reflexivity|]. split; [reflexivity|].
  intros root pp lastPath parent body -> Hpath Hparent Hbody.
  exists (storeBody root pp (splice_remove body (pi_index lastPath))),
    (with_body parent (splice_remove body (pi_index lastPath))).
  split; [by eapply remove_resolved|].
  split; [by apply store_resolve|].
  split; [apply shell_with_body|].
  split; [by eapply node_body_with_body|].
  intros q Hq1 Hq2. by apply store_frame.
Qed.

Lemma prune_equals_remove_witness :
  handle_prune sample_handle (Some sample_tree)
    = handle_remove sample_handle (Some sample_tree) ∧
  ∃ root' parent',
    handle_prune sample_handle (Some sample_tree) = Some root' ∧
    getNodeAtPath (Some root') [mkPathItem sample_subshell 1] = Some parent' ∧
    node_body parent' = Some [Some (NCommand (echo 3 "a"))].
Proof.
  destruct (prune_equals_remove (Some sample_tree) sample_handle)
    as (Heq & _ & Heffect).
  split; [exact Heq|].
  destruct (Heffect sample_tree [mkPathItem sample_subshell 1]
              (mkPathItem (NCommand (echo 4 "b")) 1) sample_subshell
              [Some (NCommand (echo 3 "a")); Some (NCommand (echo 4 "b"))]
              eq_refl eq_refl eq_refl eq_refl)
    as (root' & parent' & H1 & H2 & _ & H3 & _).
  exists root', parent'. split; [exact H1|]. split; [exact H2 | exact H3].
Defined.

Lemma replace_overwrites_addressed_slot_witness :
  let N1 := NCommand (echo 7 "c") in
  let N2 := NCommand (echo 8 "d") in
  getNodeAtPath (Some sample_tree) [mkPathItem sample_subshell 1]
    = Some sample_subshell ∧
  1 < length [Some (NCommand (echo 3 "a")); Some (NCommand (echo 4 "b"))] ∧
  ∃ root',
    handle_replace sample_handle N1 (Some sample_tree) = Some root' ∧
    getNodeAtPath (Some root') (np_path sample_handle) = Some N1 ∧
    getNodeAtPath (handle_replace sample_handle N2 (Some root'))
      (np_path sample_handle) = Some N2.
Proof.
  intros N1 N2. split; [reflexivity|]. split; [simpl; lia|].
  destruct (replace_overwrites_addressed_slot
              sample_tree sample_handle
              [mkPathItem sample_subshell 1]
              (mkPathItem (NCommand (echo 4 "b")) 1)
              sample_subshell
              [Some (NCommand (echo 3 "a")); Some (NCommand (echo 4 "b"))]
              N1 N2 eq_refl eq_refl eq_refl ltac:(simpl; lia))
    as (root' & parent' & H1 & H2 & _ & _ & _ & _ & _ & _ & H3).
  exists root'. split; [exact H1|]. split; [exact H2 | exact H3].
Defined.

Lemma insert_splices_at_captured_index_witness :
  let X := NComment 9 "inserted" KLine None in
  getNodeAtPath (Some sample_tree) [mkPathItem sample_subshell 1]
    = Some sample_subshell ∧
  1 < length [Some (NCommand (echo 3 "a")); Some (NCommand (echo 4 "b"))] ∧
  (∃ root' parent' body',
     handle_insertBefore sample_handle X (Some sample_tree) = Some root' ∧
     getNodeAtPath (Some root') [mkPathItem sample_subshell 1] = Some parent' ∧
     node_body parent' = Some body' ∧
     body' !! 1 = Some (Some X) ∧
     body' !! 2 = Some (Some (NCommand (echo 4 "b")))) ∧
  (∃ root' parent' body',
     handle_insertAfter sample_handle X (Some sample_tree) = Some root' ∧
     getNodeAtPath (Some root') [mkPathItem sample_subshell 1] = Some parent' ∧
     node_body parent' = Some body' ∧
     body' !! 1 = Some (Some (NCommand (echo 4 "b"))) ∧
     body' !! 2 = Some (Some X)).
Proof.
  intros X. split; [reflexivity|]. split; [simpl; lia|].
  destruct (insert_splices_at_captured_index
              sample_tree sample_handle
              [mkPathItem sample_subshell 1]
              (mkPathItem (NCommand (echo 4 "b")) 1)
              sample_subshell
              [Some (NCommand (echo 3 "a")); Some (NCommand (echo 4 "b"))]
              X eq_refl eq_refl eq_refl ltac:(simpl; lia))
    as [(rB & pB & bB & B1 & B2 & _ & B3 & _ & B4 & B5 & _)
        (rA & pA & bA & A1 & A2 & _ & A3 & _ & A4 & A5 & _)].
  split.
  - exists rB, pB, bB. repeat split; try done.
  - exists rA, pA, bA. repeat split; try done.
    apply (A5 1). simpl. lia.
Defined.

(** ** Traversal *)

Lemma child_size node body child :
  node_body node = Some body → Some child ∈ body →
  node_size child < node_size node.
Proof.
  intros Hbody Hin.
  assert (node_size child
          ≤ list_sum (map (λ slot, match slot with
                                   | Some c => node_size c
                                   | None => 0
                                   end) body)) as Hle.
  { clear Hbody. induction body as [|slot body IH]; [by apply elem_of_nil in Hin|].
    apply elem_of_cons in Hin as [<- | Hin]; simpl; [lia|].
    specialize (IH Hin). lia. }
  destruct node as [| | | | | | | | | |? ? ? [?|] ?]; simpl in *;
    try discriminate; injection Hbody as ->; lia.
Qed.

(** Induction over the nodes reachable through [body] arrays. *)
Lemma body_induction (P : ASTNode → Prop) :
  (∀ node, (∀ body child, node_body node = Some body → Some child ∈ body →
                          P child) → P node) →
  ∀ node, P node.
Proof.
  intros Hstep.
  assert (∀ k node, node_size node < k → P node) as Hall.
  { induction k as [|k IH]; intros node Hk; [lia|].
    apply Hstep. intros body child Hbody Hin. apply IH.
    pose proof (child_size node body child Hbody Hin). lia. }
  intros node. apply (Hall (S (node_size node))). lia.
Qed.

Lemma walkAST_unfold {S : Type} node (callback : ASTNode → list PathItem → S → S)
    path s :
  walkAST node callback path s
  = match node_body node with
    | Some body =>
        forEach_from
          (λ child index,
             walkAST child callback (path ++ [mkPathItem child index]))
          body 0 (callback node path s)
    | None => callback node path s
    end.
Proof. destruct node as [| | | | | | | | | |? ? ? [?|] ?]; reflexivity. Qed.

Lemma collect_fold (l acc : list NodePath) :
  fold_left (call (λ n p collection, collection ++ [mkNodePath n p])) l acc
  = acc ++ l.
Proof.
  revert acc. induction l as [|[n p] l IH]; intros acc; simpl.
  - by rewrite app_nil_r.
  - rewrite IH. unfold call. simpl. by rewrite <- app_assoc.
Qed.

Lemma forEach_from_fold {S : Type} (callback : ASTNode → list PathItem → S → S)
    body path :
  (∀ child, Some child ∈ body →
     ∀ S' (cb : ASTNode → list PathItem → S' → S') p s,
       walkAST child cb p s = fold_left (call cb) (visit child p) s) →
  ∀ index s,
    forEach_from
      (λ child index,
         walkAST child callback (path ++ [mkPathItem child index]))
      body index s
    = fold_left (call callback) (body_visits body path index) s.
Proof.
  induction body as [|[child|] body IH]; intros Hchildren index s; simpl.
  - done.
  - rewrite fold_left_app, <- IH.
    + f_equal. apply Hchildren. apply list_elem_of_here.
    + intros c Hc. apply Hchildren. by apply list_elem_of_further.
  - apply IH. intros c Hc. apply Hchildren. by apply list_elem_of_further.
Qed.

(** The walk calls the callback on the visited handles, one after the
    other. *)
Lemma walkAST_fold node :
  ∀ S (callback : ASTNode → list PathItem → S → S) path s,
    walkAST node callback path s = fold_left (call callback) (visit node path) s.
Proof.
  induction node as [node IH] using body_induction.
  intros S callback path s.
  assert (visit node path
          = mkNodePath node path ::
            match node_body node with
            | Some body => body_visits body path 0
            | None => []
            end) as Hvisit.
  { unfold visit. rewrite walkAST_unfold.
    destruct (node_body node) as [body|] eqn:Hbody; [|done].
    rewrite forEach_from_fold by (intros; by eapply IH).
    by rewrite collect_fold. }
  rewrite Hvisit, walkAST_unfold.
  destruct (node_body node) as [body|] eqn:Hbody; [|done].
  rewrite forEach_from_fold by (intros; by eapply IH). done.
Qed.

Lemma visit_unfold node path :
  visit node path
  = mkNodePath node path ::
    match node_body node with
    | Some body => body_visits body path 0
    | None => []
    end.
Proof.
  unfold visit at 1. rewrite walkAST_unfold.
  destruct (node_body node) as [body|] eqn:Hbody; [|done].
  rewrite forEach_from_fold by (intros; apply walkAST_fold).
  by rewrite collect_fold.
Qed.

Lemma findNodes_filter ast nodeType filter :
  findNodes ast nodeType filter
  = List.filter (selected nodeType filter) (visit ast []).
Proof.
  unfold findNodes. rewrite walkAST_fold.
  assert (∀ l acc,
            fold_left
              (call (λ node path collection,
                       if strict_eq (VStr (node_type node)) nodeType
                          && matchesFilter node filter
                       then collection ++ [mkNodePath node path]
                       else collection)) l acc
            = acc ++ List.filter (selected nodeType filter) l) as Hfold.
  { induction l as [|[n p] l IH]; intros acc; cbn [fold_left List.filter].
    - by rewrite app_nil_r.
    - rewrite IH. unfold call, selected. cbn [np_value np_path].
      destruct (strict_eq (VStr (node_type n)) nodeType && matchesFilter n filter);
        [by rewrite <- app_assoc | done]. }
  by rewrite Hfold.
Qed.

Lemma body_visits_sound body path :
  (∀ child, Some child ∈ body →
     ∀ p h, h ∈ visit child p →
       ∃ q, np_path h = p ++ q ∧ getNodeFrom (Some child) q = Some (np_value h)) →
  ∀ k h, h ∈ body_visits body path k →
    ∃ j child q, body !! j = Some (Some child) ∧
      np_path h = path ++ mkPathItem child (k + j) :: q ∧
      getNodeFrom (Some child) q = Some (np_value h).
Proof.
  induction body as [|[child|] body IHbody]; intros IH k h Hk; simpl in Hk.
  - by apply elem_of_nil in Hk.
  - apply elem_of_app in Hk as [Hk|Hk].
    + destruct (IH child (list_elem_of_here _ _) _ _ Hk) as (q & Hq & Hres).
      exists 0, child, q. rewrite Nat.add_0_r. split; [done|].
      split; [by rewrite Hq, <- app_assoc | done].
    + destruct (IHbody) with (k := k + 1) (h := h)
        as (j & c & q & Hj & Hq & Hres); [|done|].
      { intros c Hc. apply IH. by apply list_elem_of_further. }
      exists (S j), c, q. split; [done|].
      split; [|done]. rewrite Hq. do 3 f_equal. lia.
  - destruct (IHbody) with (k := k + 1) (h := h)
      as (j & c & q & Hj & Hq & Hres); [|done|].
    { intros c Hc. apply IH. by apply list_elem_of_further. }
    exists (S j), c, q. split; [done|].
    split; [|done]. rewrite Hq. do 3 f_equal. lia.
Qed.

(** Every visited handle addresses its node. *)
Lemma visit_sound node :
  ∀ path h, h ∈ visit node path →
    ∃ q, np_path h = path ++ q ∧ getNodeFrom (Some node) q = Some (np_value h).
Proof.
  induction node as [node IH] using body_induction.
  intros path h. rewrite visit_unfold. intros Hin.
  apply elem_of_cons in Hin as [-> | Hin].
  { exists []. by rewrite app_nil_r. }
  destruct (node_body node) as [body|] eqn:Hbody; [|by apply elem_of_nil in Hin].
  destruct (body_visits_sound body path (λ c Hc, IH body c eq_refl Hc) 0 h Hin)
    as (j & child & q & Hj & Hq & Hres).
  exists (mkPathItem child j :: q). split; [done|].
  simpl. rewrite Hbody. unfold body_at. rewrite Hj. done.
Qed.

Lemma body_visits_complete body path :
  (∀ child, Some child ∈ body →
     ∀ p q m, getNodeFrom (Some child) q = Some m →
       ∃ q', path_indices q' = path_indices q ∧
             mkNodePath m (p ++ q') ∈ visit child p) →
  ∀ k j child q m,
    body !! j = Some (Some child) →
    getNodeFrom (Some child) q = Some m →
    ∃ q', path_indices q' = path_indices q ∧
          mkNodePath m (path ++ mkPathItem child (k + j) :: q')
            ∈ body_visits body path k.
Proof.
  induction body as [|slot body IHbody]; intros IH k j child q m Hj Hq;
    [discriminate|].
  destruct j as [|j]; simpl in Hj.
  - injection Hj as ->. simpl.
    destruct (IH child (list_elem_of_here _ _)
                (path ++ [mkPathItem child k]) q m Hq) as (q' & Hq' & Hin).
    exists q'. split; [done|]. apply elem_of_app. left.
    rewrite Nat.add_0_r. by rewrite <- app_assoc in Hin.
  - destruct (IHbody) with (k := k + 1) (j := j) (child := child) (q := q) (m := m)
      as (q' & Hq' & Hin); [|done|done|].
    { intros c Hc. apply IH. by apply list_elem_of_further. }
    exists q'. split; [done|].
    replace (k + S j) with (k + 1 + j) by lia.
    destruct slot; simpl; [apply elem_of_app; by right | done].
Qed.

(** Every node reachable through [body] arrays is visited, at its
    position. *)
Lemma visit_complete node :
  ∀ path q m, getNodeFrom (Some node) q = Some m →
    ∃ q', path_indices q' = path_indices q ∧
          mkNodePath m (path ++ q') ∈ visit node path.
Proof.
  induction node as [node IH] using body_induction.
  intros path q m Hq. rewrite visit_unfold.
  destruct q as [|x q].
  { simpl in Hq. injection Hq as <-. exists []. split; [done|].
    rewrite app_nil_r. apply list_elem_of_here. }
  simpl in Hq.
  destruct (node_body node) as [body|] eqn:Hbody; [|discriminate].
  unfold body_at in Hq.
  destruct (body !! pi_index x) as [[child|]|] eqn:Hx; simpl in Hq;
    try (by rewrite getNodeFrom_None in Hq).
  destruct (body_visits_complete body path (λ c Hc, IH body c eq_refl Hc)
              0 (pi_index x) child q m Hx Hq) as (q' & Hq' & Hin).
  exists (mkPathItem child (pi_index x) :: q'). split.
  - unfold path_indices in *. simpl. by rewrite Hq'.
  - by apply list_elem_of_further.
Qed.

(** Document order. *)
Lemma doc_lt_prefix l a b : doc_lt a b → doc_lt (l ++ a) (l ++ b).
Proof. intros H. induction l as [|i l IH]; [done|]. by apply doc_lt_inside. Qed.

Lemma doc_lt_extend l i r : doc_lt l (l ++ i :: r).
Proof.
  rewrite <- (app_nil_r l) at 1. apply doc_lt_prefix. apply doc_lt_below.
Qed.

Lemma doc_lt_irrefl l : ¬ doc_lt l l.
Proof.
  induction l as [|i l IH]; intros H; inversion H; subst; [lia | done].
Qed.

Lemma doc_lt_trans a b c : doc_lt a b → doc_lt b c → doc_lt a c.
Proof.
  intros Hab. revert c. induction Hab as [i p|i j p q Hij|i p q Hpq IH];
    intros c Hbc; inversion Hbc; subst.
  - apply doc_lt_below.
  - apply doc_lt_below.
  - apply doc_lt_sibling. lia.
  - by apply doc_lt_sibling.
  - by apply doc_lt_sibling.
  - apply doc_lt_inside. by apply IH.
Qed.

Lemma path_indices_app p q :
  path_indices (p ++ q) = path_indices p ++ path_indices q.
Proof. apply map_app. Qed.

Lemma body_visits_paths body path k h :
  h ∈ body_visits body path k →
  ∃ j child q, body !! j = Some (Some child) ∧
               np_path h = path ++ mkPathItem child (k + j) :: q.
Proof.
  intros Hin.
  destruct (body_visits_sound body path
              (λ child _, visit_sound child) k h Hin)
    as (j & child & q & Hj & Hq & _).
  eauto.
Qed.

Lemma body_visits_sorted body path :
  (∀ child, Some child ∈ body →
     ∀ p, StronglySorted handle_lt (visit child p)) →
  ∀ k, StronglySorted handle_lt (body_visits body path k).
Proof.
  induction body as [|[child|] body IHbody]; intros IH k; simpl.
  - constructor.
  - apply StronglySorted_app_2.
    + intros h1 h2 Hh1 Hh2.
      destruct (visit_sound child _ _ Hh1) as (q1 & Hq1 & _).
      destruct (body_visits_paths _ _ _ _ Hh2) as (j & c & q2 & _ & Hq2).
      unfold handle_lt. rewrite Hq1, Hq2, <- app_assoc, !path_indices_app.
      apply doc_lt_prefix. simpl. apply doc_lt_sibling. lia.
    + apply IH. apply list_elem_of_here.
    + apply IHbody. intros c Hc. apply IH. by apply list_elem_of_further.
  - apply IHbody. intros c Hc. apply IH. by apply list_elem_of_further.
Qed.

(** The walk visits the nodes in document order. *)
Lemma visit_sorted node : ∀ path, StronglySorted handle_lt (visit node path).
Proof.
  induction node as [node IH] using body_induction.
  intros path. rewrite visit_unfold. apply SSorted_cons.
  - destruct (node_body node) as [body|] eqn:Hbody; [|constructor].
    apply body_visits_sorted. intros c Hc. by eapply IH.
  - destruct (node_body node) as [body|] eqn:Hbody; [|constructor].
    apply Forall_forall. intros h Hin.
    destruct (body_visits_paths _ _ _ _ Hin) as (j & c & q & _ & Hq).
    unfold handle_lt. simpl. rewrite Hq, path_indices_app. apply doc_lt_extend.
Qed.

Lemma sorted_filter {A : Type} (R : A → A → Prop) (f : A → bool) (l : list A) :
  StronglySorted R l → StronglySorted R (List.filter f l).
Proof.
  induction 1 as [|x l Hl IH Hx]; simpl; [constructor|].
  destruct (f x); [|done]. apply SSorted_cons; [done|].
  apply Forall_forall. intros y Hy.
  apply list_elem_of_In, filter_In in Hy as [Hy _].
  rewrite Forall_forall in Hx. apply Hx. by apply list_elem_of_In.
Qed.

(** X23. [find] and [getNodeAtPath] agree on the nodes of a tree:
    [find(K, {})] returns handles for exactly the nodes of kind K that a
    path can address (the nodes reachable from the root through [body]
    arrays), each with a path that resolves to it, in pre-order (document
    order). *)
Theorem find_visits_body_reachable_nodes_in_preorder
    (ast : ASTNode) (K : string) :
  (∀ h, h ∈ findNodes ast (VStr K) ∅ →
        node_type (np_value h) = K ∧
        getNodeAtPath (Some ast) (np_path h) = Some (np_value h))
  ∧ (∀ q node, getNodeAtPath (Some ast) q = Some node → node_type node = K →
               ∃ h, h ∈ findNodes ast (VStr K) ∅ ∧ np_value h = node ∧
                    path_indices (np_path h) = path_indices q)
  ∧ StronglySorted handle_lt (findNodes ast (VStr K) ∅)
  ∧ (∀ h1 h2, handle_lt h1 h2 → ¬ handle_lt h2 h1).
Proof.
  rewrite findNodes_filter.
  assert (∀ h, selected (VStr K) ∅ h = true ↔ node_type (np_value h) = K)
    as Hsel.
  { intros h. unfold selected.
    rewrite matchesFilter_empty, andb_true_r. simpl. apply String.eqb_eq. }
  split; [|split; [|split]].
  - intros h Hin. apply list_elem_of_In, filter_In in Hin as [Hin Hk].
    apply Hsel in Hk. split; [done|].
    destruct (visit_sound ast [] h) as (q & Hq & Hres);
      [by apply list_elem_of_In|].
    simpl in Hq. by rewrite Hq.
  - intros q node Hres Hk.
    destruct (visit_complete ast [] q node Hres) as (q' & Hq' & Hin).
    exists (mkNodePath node q'). split; [|done].
    apply list_elem_of_In, filter_In. split; [by apply list_elem_of_In|].
    by apply Hsel.
  - apply sorted_filter, visit_sorted.
  - intros h1 h2 H12 H21. eapply doc_lt_irrefl, doc_lt_trans; done.
Qed.

(** C1.  [find] misses the nodes that sit outside [body] arrays, which the
    walk is documented to reach (it is to call back for each node) and
    which the generator does descend into.  In the sample script the
    command inside the [then] branch is reachable through [consequent],
    and [find] does not return it; in the second script the commands of
    both branches and of the pipeline, and the redirect, are reachable
    through [consequent], [alternate], [commands] and [redirects], and
    [find] returns none of them. *)
Lemma find_misses_nodes_outside_body :
  spec_find sample_tree "Command"
    = [NCommand (echo 3 "a"); NCommand (echo 4 "b"); NCommand (echo 6 "yes")]
  ∧ map np_value (findNodes sample_tree (VStr "Command") ∅)
    = [NCommand (echo 3 "a"); NCommand (echo 4 "b")]
  ∧ map np_value (findNodes sample_tree (VStr "Command") ∅)
    ≠ spec_find sample_tree "Command"
  ∧ length (spec_find sample_nested "Command") = 3
  ∧ findNodes sample_nested (VStr "Command") ∅ = []
  ∧ length (spec_find sample_nested "Redirect") = 1
  ∧ findNodes sample_nested (VStr "Redirect") ∅ = [].
Proof.
  assert (map np_value (findNodes sample_tree (VStr "Command") ∅)
          = [NCommand (echo 3 "a"); NCommand (echo 4 "b")]) as Hfind
    by (vm_compute; reflexivity).
  split; [reflexivity|]. split; [exact Hfind|]. split.
  - rewrite Hfind. discriminate.
  - repeat split; vm_compute; reflexivity.
Qed.

Lemma find_visits_body_reachable_nodes_in_preorder_witness :
  sample_handle ∈ findNodes sample_tree (VStr "Command") ∅ ∧
  node_type (np_value sample_handle) = "Command" ∧
  getNodeAtPath (Some sample_tree) (np_path sample_handle)
    = Some (np_value sample_handle).
Proof.
  assert (sample_handle ∈ findNodes sample_tree (VStr "Command") ∅) as Hin.
  { rewrite sample_find. apply list_elem_of_further, list_elem_of_here. }
  split; [exact Hin|].
  destruct (find_visits_body_reachable_nodes_in_preorder sample_tree "Command")
    as (Hsound & _).
  exact (Hsound sample_handle Hin).
Defined.

(** * Further properties of the engine *)

(** ** Mutators *)

Lemma with_body_same node body : node_body node = Some body → with_body node body = node.
Proof.
  destruct node as [| | | | | | | | | |? ? ? [?|] ?]; simpl; congruence.
Qed.

(** Writing back the contents an array already has changes nothing. *)
Lemma storeBody_same root pp parent body :
  getNodeFrom (Some root) pp = Some parent →
  node_body parent = Some body →
  storeBody root pp body = root.
Proof.
  revert root. induction pp as [|x pp IH]; intros root Hparent Hbody; simpl in *.
  - injection Hparent as ->. by apply with_body_same.
  - destruct (node_body root) as [b|] eqn:Hb; [|done].
    destruct (body_at b (pi_index x)) as [child|] eqn:Hchild; [|done].
    rewrite (IH child Hparent Hbody).
    rewrite list_insert_id; [by apply with_body_same|].
    unfold body_at in Hchild.
    destruct (b !! pi_index x) as [[c|]|]; simpl in Hchild; congruence.
Qed.

Lemma splice_remove_lookup body start j :
  splice_remove body start !! j
  = if decide (j < start) then body !! j else body !! (j + 1).
Proof.
  unfold splice_remove.
  destruct (decide (start ≤ length body)) as [Hle|Hgt].
  - assert (length (take start body) = start) as Htake
      by (rewrite length_take; lia).
    destruct (decide (j < start)).
    + rewrite lookup_app_l by lia. by apply lookup_take_lt.
    + rewrite lookup_app_r by lia. rewrite Htake, lookup_drop. f_equal. lia.
  - rewrite take_ge, drop_ge, app_nil_r by lia.
    destruct (decide (j < start)); [done|].
    rewrite !lookup_ge_None_2 by lia. done.
Qed.

Lemma splice_remove_length body start :
  start < length body → length (splice_remove body start) + 1 = length body.
Proof.
  intros H. unfold splice_remove. rewrite length_app, length_take, length_drop. lia.
Qed.

Lemma splice_remove_insert body start x :
  start ≤ length body → splice_remove (splice_insert body start x) start = body.
Proof.
  intros H. apply list_eq. intros j.
  rewrite splice_remove_lookup, !splice_insert_lookup by done.
  repeat case_decide; try lia; try done. f_equal. lia.
Qed.

Lemma splice_remove_insert_after body start x :
  start < length body →
  splice_remove (splice_insert body (start + 1) x) start = <[start := Some x]> body.
Proof.
  intros H. apply list_eq. intros j.
  rewrite splice_remove_lookup, !splice_insert_lookup by lia.
  destruct (decide (j = start)) as [->|Hne].
  - rewrite list_lookup_insert_eq by done. repeat case_decide; try lia; done.
  - rewrite list_lookup_insert_ne by done.
    repeat case_decide; try lia; try done. f_equal. lia.
Qed.

(** X1. On a handle whose path resolves to index i of its parent's body,
    remove deletes exactly that slot: the body is one shorter, the slots
    before i stay, and every slot after i moves one place down, so that a
    path captured earlier for index j >= i now addresses what was at
    j + 1. *)
Theorem remove_deletes_addressed_slot
    (root : ASTNode) (h : NodePath) (pp : list PathItem) (lastPath : PathItem)
    (parent : ASTNode) (body : list (option ASTNode))
    (Hpath : np_path h = pp ++ [lastPath])
    (Hparent : getNodeAtPath (Some root) pp = Some parent)
    (Hbody : node_body parent = Some body)
    (Hindex : pi_index lastPath < length body) :
  let i := pi_index lastPath in
  ∃ root' parent' body',
    handle_remove h (Some root) = Some root' ∧
    getNodeAtPath (Some root') pp = Some parent' ∧
    shell parent' = shell parent ∧
    node_body parent' = Some body' ∧
    length body' + 1 = length body ∧
    (∀ j, j < i → body' !! j = body !! j) ∧
    (∀ j, i ≤ j → body' !! j = body !! (j + 1)) ∧
    (∀ item item',
       i ≤ pi_index item → pi_index item' = pi_index item + 1 →
       getNodeAtPath (Some root') (pp ++ [item])
       = getNodeAtPath (Some root) (pp ++ [item'])).
Proof.
  intros i.
  exists (storeBody root pp (splice_remove body i)),
    (with_body parent (splice_remove body i)), (splice_remove body i).
  assert (getNodeAtPath (Some (storeBody root pp (splice_remove body i))) pp
          = Some (with_body parent (splice_remove body i))) as Hres
    by (by apply store_resolve).
  assert (node_body (with_body parent (splice_remove body i))
          = Some (splice_remove body i)) as Hnew
    by (by eapply node_body_with_body).
  split; [by eapply remove_resolved|]. split; [exact Hres|].
  split; [apply shell_with_body|]. split; [exact Hnew|].
  split; [by apply splice_remove_length|]. split; [|split].
  - intros j Hj. rewrite splice_remove_lookup. by rewrite decide_True.
  - intros j Hj. rewrite splice_remove_lookup. by rewrite decide_False by lia.
  - intros item item' Hitem Hnext. unfold getNodeAtPath in *.
    rewrite !getNodeFrom_app, Hres, Hparent. simpl. rewrite Hnew, Hbody.
    unfold body_at. rewrite splice_remove_lookup.
    rewrite decide_False by (fold i; lia). by rewrite Hnext.
Qed.

Lemma remove_deletes_addressed_slot_witness :
  0 < length [Some (NCommand (echo 3 "a")); Some (NCommand (echo 4 "b"))] ∧
  ∃ root',
    handle_remove
      (mkNodePath (NCommand (echo 3 "a"))
         [mkPathItem sample_subshell 1; mkPathItem (NCommand (echo 3 "a")) 0])
      (Some sample_tree) = Some root' ∧
    getNodeAtPath (Some root')
      [mkPathItem sample_subshell 1; mkPathItem (NCommand (echo 3 "a")) 0]
    = Some (NCommand (echo 4 "b")).
Proof.
  split; [simpl; lia|].
  destruct (remove_deletes_addressed_slot
              sample_tree
              (mkNodePath (NCommand (echo 3 "a"))
                 [mkPathItem sample_subshell 1;
                  mkPathItem (NCommand (echo 3 "a")) 0])
              [mkPathItem sample_subshell 1]
              (mkPathItem (NCommand (echo 3 "a")) 0)
              sample_subshell
              [Some (NCommand (echo 3 "a")); Some (NCommand (echo 4 "b"))]
              eq_refl eq_refl eq_refl ltac:(simpl; lia))
    as (root' & parent' & body' & H1 & _ & _ & _ & _ & _ & _ & H2).
  exists root'. split; [exact H1|].
  exact (H2 (mkPathItem (NCommand (echo 3 "a")) 0)
            (mkPathItem (NCommand (echo 4 "b")) 1)
            ltac:(simpl; lia) ltac:(simpl; lia)).
Defined.

(** X2. insertBefore followed by remove through the same handle restores
    the tree: the inserted node is the one the path then addresses. *)
Theorem remove_undoes_insertBefore
    (root : ASTNode) (h : NodePath) (pp : list PathItem) (lastPath : PathItem)
    (parent : ASTNode) (body : list (option ASTNode)) (X : ASTNode)
    (Hpath : np_path h = pp ++ [lastPath])
    (Hparent : getNodeAtPath (Some root) pp = Some parent)
    (Hbody : node_body parent = Some body)
    (Hindex : pi_index lastPath ≤ length body) :
  handle_remove h (handle_insertBefore h X (Some root)) = Some root.
Proof.
  erewrite insertBefore_resolved by done.
  erewrite remove_resolved;
    [|done|by apply store_resolve|by eapply node_body_with_body].
  rewrite store_store, splice_remove_insert by done.
  f_equal. by eapply storeBody_same.
Qed.

Lemma remove_undoes_insertBefore_witness :
  handle_remove sample_handle
    (handle_insertBefore sample_handle (NComment 9 "x" KLine None)
       (Some sample_tree))
  = Some sample_tree.
Proof.
  apply (remove_undoes_insertBefore sample_tree sample_handle
           [mkPathItem sample_subshell 1]
           (mkPathItem (NCommand (echo 4 "b")) 1) sample_subshell
           [Some (NCommand (echo 3 "a")); Some (NCommand (echo 4 "b"))]);
    [reflexivity | reflexivity | reflexivity | simpl; lia].
Defined.

(** X3. insertAfter followed by remove through the same handle amounts to
    replace: the remove takes out the node the handle was captured for and
    leaves the inserted one in its place. *)
Theorem insertAfter_then_remove_is_replace
    (root : ASTNode) (h : NodePath) (pp : list PathItem) (lastPath : PathItem)
    (parent : ASTNode) (body : list (option ASTNode)) (X : ASTNode)
    (Hpath : np_path h = pp ++ [lastPath])
    (Hparent : getNodeAtPath (Some root) pp = Some parent)
    (Hbody : node_body parent = Some body)
    (Hindex : pi_index lastPath < length body) :
  handle_remove h (handle_insertAfter h X (Some root))
  = handle_replace h X (Some root).
Proof.
  erewrite insertAfter_resolved by done.
  erewrite remove_resolved;
    [|done|by apply store_resolve|by eapply node_body_with_body].
  rewrite store_store, splice_remove_insert_after by done.
  by erewrite replace_resolved.
Qed.

Lemma insertAfter_then_remove_is_replace_witness :
  handle_remove sample_handle
    (handle_insertAfter sample_handle (NComment 9 "x" KLine None)
       (Some sample_tree))
  = handle_replace sample_handle (NComment 9 "x" KLine None) (Some sample_tree).
Proof.
  apply (insertAfter_then_remove_is_replace sample_tree sample_handle
           [mkPathItem sample_subshell 1]
           (mkPathItem (NCommand (echo 4 "b")) 1) sample_subshell
           [Some (NCommand (echo 3 "a")); Some (NCommand (echo 4 "b"))]);
    [reflexivity | reflexivity | reflexivity | simpl; lia].
Defined.

(** X4. Paths are not re-validated.  Of two handles captured in one query
    for neighbouring slots i and i + 1 of the same body, removing through
    the first and then through the second leaves the node the second
    handle was captured for in the tree (now at i) and takes out what was
    at i + 2 instead. *)
Theorem stale_handle_removes_next_sibling
    (root : ASTNode) (h1 h2 : NodePath) (pp : list PathItem)
    (last1 last2 : PathItem) (parent : ASTNode) (body : list (option ASTNode))
    (Hpath1 : np_path h1 = pp ++ [last1])
    (Hpath2 : np_path h2 = pp ++ [last2])
    (Hnext : pi_index last2 = pi_index last1 + 1)
    (Hparent : getNodeAtPath (Some root) pp = Some parent)
    (Hbody : node_body parent = Some body)
    (Hindex : pi_index last2 < length body) :
  let i := pi_index last1 in
  ∃ root'' parent'' body'',
    handle_remove h2 (handle_remove h1 (Some root)) = Some root'' ∧
    getNodeAtPath (Some root'') pp = Some parent'' ∧
    node_body parent'' = Some body'' ∧
    (∀ j, j < i → body'' !! j = body !! j) ∧
    body'' !! i = body !! (i + 1) ∧
    (∀ j, i < j → body'' !! j = body !! (j + 2)).
Proof.
  intros i.
  set (body1 := splice_remove body i).
  set (body2 := splice_remove body1 (pi_index last2)).
  exists (storeBody root pp body2), (with_body parent body2), body2.
  assert (handle_remove h1 (Some root) = Some (storeBody root pp body1)) as H1
    by (by eapply remove_resolved).
  assert (handle_remove h2 (Some (storeBody root pp body1))
          = Some (storeBody root pp body2)) as H2.
  { erewrite remove_resolved;
      [|done|by apply store_resolve|by eapply node_body_with_body].
    by rewrite store_store. }
  split; [by rewrite H1, H2|]. split; [by apply store_resolve|].
  split; [by eapply node_body_with_body|].
  unfold body2, body1. rewrite Hnext. fold i. split; [|split].
  - intros j Hj. rewrite !splice_remove_lookup. by rewrite !decide_True by lia.
  - rewrite !splice_remove_lookup.
    rewrite decide_True by lia. by rewrite decide_False by lia.
  - intros j Hj. rewrite !splice_remove_lookup.
    rewrite !decide_False by lia. f_equal. lia.
Qed.

Lemma stale_handle_removes_next_sibling_witness :
  let a := NCommand (echo 1 "a") in
  let b := NCommand (echo 2 "b") in
  let c := NCommand (echo 3 "c") in
  let root := NProgram 0 [Some a; Some b; Some c] None in
  ∃ root'' parent'' body'',
    handle_remove (mkNodePath b [mkPathItem b 1])
      (handle_remove (mkNodePath a [mkPathItem a 0]) (Some root))
    = Some root'' ∧
    getNodeAtPath (Some root'') [] = Some parent'' ∧
    node_body parent'' = Some body'' ∧
    body'' !! 0 = Some (Some b).
Proof.
  intros a b c root.
  destruct (stale_handle_removes_next_sibling root
              (mkNodePath a [mkPathItem a 0]) (mkNodePath b [mkPathItem b 1])
              [] (mkPathItem a 0) (mkPathItem b 1) root [Some a; Some b; Some c]
              eq_refl eq_refl eq_refl eq_refl eq_refl ltac:(simpl; lia))
    as (root'' & parent'' & body'' & H1 & H2 & H3 & _ & H4 & _).
  exists root'', parent'', body''. repeat split; done.
Defined.

Lemma array_set_past_end arr index x :
  length arr ≤ index →
  array_set arr index x = arr ++ replicate (index - length arr) None ++ [Some x].
Proof. intros H. unfold array_set. by rewrite decide_False by lia. Qed.

(** X5. replace through a stale handle whose index lies at or past the end
    of the body does not fail and does not overwrite anything: the body
    grows to hold the new node at the captured index, the old slots stay,
    and the slots in between are empty (they resolve to nothing). *)
Theorem replace_past_end_extends_body
    (root : ASTNode) (h : NodePath) (pp : list PathItem) (lastPath : PathItem)
    (parent : ASTNode) (body : list (option ASTNode)) (N : ASTNode)
    (Hpath : np_path h = pp ++ [lastPath])
    (Hparent : getNodeAtPath (Some root) pp = Some parent)
    (Hbody : node_body parent = Some body)
    (Hindex : length body ≤ pi_index lastPath) :
  let i := pi_index lastPath in
  ∃ root' parent' body',
    handle_replace h N (Some root) = Some root' ∧
    getNodeAtPath (Some root') pp = Some parent' ∧
    node_body parent' = Some body' ∧
    length body' = i + 1 ∧
    (∀ j, j < length body → body' !! j = body !! j) ∧
    (∀ j, length body ≤ j → j < i → body' !! j = Some None) ∧
    getNodeAtPath (Some root') (np_path h) = Some N ∧
    (∀ item, length body ≤ pi_index item → pi_index item < i →
             getNodeAtPath (Some root') (pp ++ [item]) = None).
Proof.
  intros i.
  set (body' := body ++ replicate (i - length body) None ++ [Some N]).
  assert (getNodeAtPath (Some (storeBody root pp body')) pp
          = Some (with_body parent body')) as Hres by (by apply store_resolve).
  assert (node_body (with_body parent body') = Some body') as Hnew
    by (by eapply node_body_with_body).
  assert (∀ j, length body ≤ j → j < i → body' !! j = Some None) as Hgap.
  { intros j Hj1 Hj2. unfold body'.
    rewrite lookup_app_r by lia. rewrite lookup_app_l
      by (rewrite length_replicate; lia).
    apply lookup_replicate_2. lia. }
  assert (body' !! i = Some (Some N)) as Hi.
  { unfold body'. rewrite lookup_app_r by lia.
    rewrite lookup_app_r by (rewrite length_replicate; lia).
    rewrite length_replicate. by rewrite Nat.sub_diag. }
  exists (storeBody root pp body'), (with_body parent body'), body'.
  split.
  { unfold handle_replace. rewrite replaceNode_mutate.
    erewrite mutate_resolved by done. by rewrite array_set_past_end. }
  split; [exact Hres|]. split; [exact Hnew|]. split.
  { unfold body'. rewrite !length_app, length_replicate. simpl. lia. }
  split; [intros j Hj; unfold body'; by rewrite lookup_app_l|].
  split; [exact Hgap|]. split.
  - unfold getNodeAtPath in *. rewrite Hpath, getNodeFrom_app, Hres. simpl.
    rewrite Hnew. unfold body_at. fold i. by rewrite Hi.
  - intros item H1 H2. unfold getNodeAtPath in *.
    rewrite getNodeFrom_app, Hres. simpl. rewrite Hnew. unfold body_at.
    by rewrite Hgap.
Qed.

Lemma replace_past_end_extends_body_witness :
  ∃ root',
    handle_replace (mkNodePath sample_subshell [mkPathItem sample_subshell 4])
      (NComment 9 "end" KLine None) (Some sample_tree) = Some root' ∧
    getNodeAtPath (Some root') [mkPathItem sample_subshell 3] = None ∧
    getNodeAtPath (Some root') [mkPathItem sample_subshell 4]
      = Some (NComment 9 "end" KLine None).
Proof.
  destruct (replace_past_end_extends_body sample_tree
              (mkNodePath sample_subshell [mkPathItem sample_subshell 4])
              [] (mkPathItem sample_subshell 4) sample_tree
              [Some (NComment 1 "setup" KLine None); Some sample_subshell;
               Some sample_conditional]
              (NComment 9 "end" KLine None)
              eq_refl eq_refl eq_refl ltac:(simpl; lia))
    as (root' & _ & _ & H1 & _ & _ & _ & _ & _ & H2 & H3).
  exists root'. split; [exact H1|]. split; [|exact H2].
  exact (H3 (mkPathItem sample_subshell 3) ltac:(simpl; lia) ltac:(simpl; lia)).
Defined.

Lemma mutate_shell op rootAST h :
  shell <$> mutate op rootAST h = shell <$> rootAST.
Proof.
  unfold mutate. destruct (last (np_path h)); [|done].
  destruct (getNodeAtPath rootAST _) as [parent|]; [|done].
  destruct (node_body parent); [|done].
  destruct rootAST as [root|]; [|done]. simpl. f_equal. apply shell_storeBody.
Qed.

Lemma node_type_shell node : node_type (shell node) = node_type node.
Proof. destruct node as [| | | | | | | | | |? ? ? [?|] ?]; reflexivity. Qed.

(** X6. No mutator ever acts on the root node itself: whatever the handle,
    after replace, insertBefore, insertAfter, remove or prune the root is
    the same node, with its kind and all its fields but the contents of its
    body (and a missing tree stays missing). *)
Theorem mutators_keep_the_root
    (rootAST : option ASTNode) (h : NodePath) (X : ASTNode) :
  let same_root := λ result : option ASTNode,
    shell <$> result = shell <$> rootAST ∧
    node_type <$> result = node_type <$> rootAST in
  same_root (handle_replace h X rootAST) ∧
  same_root (handle_insertBefore h X rootAST) ∧
  same_root (handle_insertAfter h X rootAST) ∧
  same_root (handle_remove h rootAST) ∧
  same_root (handle_prune h rootAST).
Proof.
  assert (∀ result : option ASTNode,
            shell <$> result = shell <$> rootAST →
            shell <$> result = shell <$> rootAST ∧
            node_type <$> result = node_type <$> rootAST) as Hsame.
  { intros result Hshell. split; [done|].
    destruct result as [r|], rootAST as [r0|]; simpl in *; try done.
    injection Hshell as Hshell.
    by rewrite <- (node_type_shell r), Hshell, node_type_shell. }
  unfold handle_replace, handle_insertBefore, handle_insertAfter, handle_remove,
    handle_prune, pruneNode.
  rewrite replaceNode_mutate, insertBeforeNode_mutate, insertAfterNode_mutate,
    removeNode_mutate.
  repeat split; try apply Hsame; try apply mutate_shell.
  all: apply (Hsame _ (mutate_shell _ _ _)).
Qed.

(** X7. A handle whose parent no longer resolves to a node with a body is
    dead: each of the five operations leaves the tree as it is, without
    raising.  (So is every handle when no tree has been parsed.) *)
Theorem dead_handle_is_noop
    (rootAST : option ASTNode) (h : NodePath) (X : ASTNode)
    (Hdead : getNodeAtPath rootAST (parent_path (np_path h)) ≫= node_body = None) :
  handle_replace h X rootAST = rootAST ∧
  handle_insertBefore h X rootAST = rootAST ∧
  handle_insertAfter h X rootAST = rootAST ∧
  handle_remove h rootAST = rootAST ∧
  handle_prune h rootAST = rootAST.
Proof.
  assert (∀ op, mutate op rootAST (mkNodePath (np_value h) (np_path h))
                = rootAST) as Hnoop.
  { intros op. unfold mutate. simpl. destruct (last (np_path h)); [|done].
    destruct (getNodeAtPath rootAST _) as [parent|]; [|done].
    simpl in Hdead. by rewrite Hdead. }
  unfold handle_replace, handle_insertBefore, handle_insertAfter, handle_remove,
    handle_prune, pruneNode.
  rewrite replaceNode_mutate, insertBeforeNode_mutate, insertAfterNode_mutate,
    removeNode_mutate.
  by rewrite !Hnoop.
Qed.

Lemma dead_handle_is_noop_witness :
  let below_comment :=
    mkNodePath (NCommand (echo 7 "x"))
      [mkPathItem (NComment 1 "setup" KLine None) 0;
       mkPathItem (NCommand (echo 7 "x")) 0] in
  handle_replace below_comment (NCommand (echo 8 "y")) (Some sample_tree)
    = Some sample_tree ∧
  handle_remove below_comment (Some sample_tree) = Some sample_tree.
Proof.
  intros below_comment.
  destruct (dead_handle_is_noop (Some sample_tree) below_comment
              (NCommand (echo 8 "y")) eq_refl)
    as (H1 & _ & _ & H2 & _).
  split; [exact H1 | exact H2].
Defined.

(** ** Queries *)

Lemma filter_filter_and {A : Type} (f g : A → bool) (l : list A) :
  List.filter f (List.filter g l) = List.filter (λ x, g x && f x) l.
Proof.
  induction l as [|x l IH]; [done|]. simpl.
  destruct (g x); simpl; [|done]. destruct (f x); by rewrite IH.
Qed.

(** X8. A query with a filter gives what filtering the unfiltered query of
    the same kind gives: the same handles, in the same order. *)
Theorem find_is_filtered_find_all
    (ast : ASTNode) (nodeType : jsval) (filter : gmap string jsval) :
  findNodes ast nodeType filter
  = filterCollection (findNodes ast nodeType ∅)
      (λ h, matchesFilter (np_value h) filter).
Proof.
  unfold filterCollection. rewrite !findNodes_filter, filter_filter_and.
  apply filter_ext. intros h. unfold selected.
  by rewrite matchesFilter_empty, andb_true_r.
Qed.

(** X10. [find] compares the kind with [===]: a [nodeType] that is not a
    string (such as a builder function, as in [ast.find(j.Command, ...)])
    selects nothing, whatever the tree and the filter. *)
Theorem find_by_non_string_is_empty
    (ast : ASTNode) (nodeType : jsval) (filter : gmap string jsval)
    (Hnot_string : ∀ s, nodeType ≠ VStr s) :
  findNodes ast nodeType filter = [] ∧
  sizeCollection (findNodes ast nodeType filter) = 0.
Proof.
  assert (findNodes ast nodeType filter = []) as Hempty.
  { rewrite findNodes_filter.
    induction (visit ast []) as [|h l IH]; [done|]. simpl.
    unfold selected at 1. destruct nodeType; simpl; try exact IH.
    by destruct (Hnot_string s). }
  by rewrite Hempty.
Qed.

Lemma find_by_non_string_is_empty_witness :
  findNodes sample_tree (VObject (RHeap 0)) {["name" := VStr "echo"]} = [] ∧
  sizeCollection
    (findNodes sample_tree (VObject (RHeap 0)) {["name" := VStr "echo"]}) = 0.
Proof.
  apply (find_by_non_string_is_empty sample_tree (VObject (RHeap 0))).
  intros s. discriminate.
Defined.

Lemma body_visits_elem body path k h :
  h ∈ body_visits body path k →
  ∃ j child, body !! j = Some (Some child) ∧
             h ∈ visit child (path ++ [mkPathItem child (k + j)]).
Proof.
  revert k. induction body as [|[child|] body IH]; intros k Hin; simpl in Hin.
  - by apply elem_of_nil in Hin.
  - apply elem_of_app in Hin as [Hin|Hin].
    + exists 0, child. by rewrite Nat.add_0_r.
    + destruct (IH _ Hin) as (j & c & Hj & Hc). exists (S j), c.
      split; [done|]. by replace (k + S j) with (k + 1 + j) by lia.
  - destruct (IH _ Hin) as (j & c & Hj & Hc). exists (S j), c.
    split; [done|]. by replace (k + S j) with (k + 1 + j) by lia.
Qed.

(** Each step of a visited handle's path holds the node found at that
    step. *)
Lemma visit_items node :
  ∀ path h, h ∈ visit node path →
    ∃ q, np_path h = path ++ q ∧
         ∀ k item, q !! k = Some item →
                   getNodeFrom (Some node) (take (S k) q) = Some (pi_node item).
Proof.
  induction node as [node IH] using body_induction.
  intros path h. rewrite visit_unfold. intros Hin.
  apply elem_of_cons in Hin as [-> | Hin].
  { exists []. split; [by rewrite app_nil_r | intros k item Hk; discriminate]. }
  destruct (node_body node) as [body|] eqn:Hbody; [|by apply elem_of_nil in Hin].
  destruct (body_visits_elem _ _ _ _ Hin) as (j & child & Hj & Hchild).
  destruct (IH body child eq_refl) with (path := path ++ [mkPathItem child (0 + j)])
    (h := h) as (q & Hq & Hitems); [by eapply list_elem_of_lookup_2|done|].
  exists (mkPathItem child j :: q). split; [by rewrite Hq, <- app_assoc|].
  intros [|k] item Hk; simpl in Hk.
  - injection Hk as <-. simpl. rewrite Hbody. unfold body_at. by rewrite Hj.
  - change (take (S (S k)) (mkPathItem child j :: q))
      with (mkPathItem child j :: take (S k) q).
    simpl. rewrite Hbody. unfold body_at. rewrite Hj. simpl. by apply Hitems.
Qed.

(** X9. In every handle a query returns, each step of the path holds the
    node found at that step when walking down from the root, the last step
    holds the handle's own node, only the root's handle has the empty path,
    and no two handles share a position. *)
Theorem handles_record_their_route
    (ast : ASTNode) (nodeType : jsval) (filter : gmap string jsval) :
  (∀ h, h ∈ findNodes ast nodeType filter →
        getNodeAtPath (Some ast) (np_path h) = Some (np_value h) ∧
        (∀ k item, np_path h !! k = Some item →
                   getNodeAtPath (Some ast) (take (S k) (np_path h))
                   = Some (pi_node item)) ∧
        (∀ item, last (np_path h) = Some item → pi_node item = np_value h) ∧
        (np_path h = [] → np_value h = ast))
  ∧ NoDup (map (λ h, path_indices (np_path h)) (findNodes ast nodeType filter)).
Proof.
  split.
  - intros h Hin. rewrite findNodes_filter in Hin.
    apply list_elem_of_In, filter_In in Hin as [Hin _].
    apply list_elem_of_In in Hin.
    destruct (visit_sound ast [] h Hin) as (q & Hq & Hres).
    destruct (visit_items ast [] h Hin) as (q' & Hq' & Hitems).
    simpl in Hq, Hq'. subst q q'. unfold getNodeAtPath.
    split; [done|]. split; [done|]. split.
    + intros item Hlast. apply last_Some in Hlast as [l' Hl'].
      assert (np_path h !! length l' = Some item) as Hk
        by (rewrite Hl'; by apply list_lookup_middle).
      specialize (Hitems _ _ Hk).
      rewrite take_ge in Hitems by (rewrite Hl', length_app; simpl; lia).
      congruence.
    + intros Hnil. rewrite Hnil in Hres. simpl in Hres. congruence.
  - assert (StronglySorted handle_lt (findNodes ast nodeType filter)) as Hsorted
      by (rewrite findNodes_filter; apply sorted_filter, visit_sorted).
    induction Hsorted as [|h l Hl IH Hh]; simpl; [constructor|].
    constructor; [|done]. intros Hin.
    apply list_elem_of_In, in_map_iff in Hin as (h' & Heq & Hin').
    rewrite Forall_forall in Hh.
    specialize (Hh h' ltac:(by apply list_elem_of_In)).
    unfold handle_lt in Hh. rewrite Heq in Hh. by apply doc_lt_irrefl in Hh.
Qed.

Lemma body_visits_values body :
  (∀ child, Some child ∈ body →
     ∀ p, map np_value (visit child p) = map np_value (visit child [])) →
  ∀ p k p' k',
    map np_value (body_visits body p k) = map np_value (body_visits body p' k').
Proof.
  induction body as [|[child|] body IHbody]; intros IH p k p' k'; simpl; [done|..].
  - rewrite !map_app. f_equal.
    + rewrite (IH child (list_elem_of_here _ _)).
      symmetry. apply (IH child (list_elem_of_here _ _)).
    + apply IHbody. intros c Hc. apply IH. by apply list_elem_of_further.
  - apply IHbody. intros c Hc. apply IH. by apply list_elem_of_further.
Qed.

(** The nodes a walk visits do not depend on the path it starts with. *)
Lemma visit_values node :
  ∀ path, map np_value (visit node path) = map np_value (visit node []).
Proof.
  induction node as [node IH] using body_induction.
  intros path. rewrite !visit_unfold. simpl. f_equal.
  destruct (node_body node) as [body|] eqn:Hbody; [|done].
  apply body_visits_values. intros c Hc. by apply (IH body c).
Qed.

Lemma filter_selected_length nodeType filter (l l' : list NodePath) :
  map np_value l = map np_value l' →
  length (List.filter (selected nodeType filter) l)
  = length (List.filter (selected nodeType filter) l').
Proof.
  revert l'. induction l as [|h l IH]; intros [|h' l'] Hmap; try discriminate;
    [done|].
  injection Hmap as Hh Hl. cbn [List.filter].
  assert (selected nodeType filter h = selected nodeType filter h') as ->
    by (unfold selected; by rewrite Hh).
  destruct (selected nodeType filter h'); cbn [length]; [f_equal|]; by apply IH.
Qed.

Lemma body_visits_found nodeType filter body path k :
  length (List.filter (selected nodeType filter) (body_visits body path k))
  = found_in nodeType filter body.
Proof.
  revert k. unfold found_in.
  induction body as [|[child|] body IH]; intros k; simpl; [done|..].
  - rewrite List.filter_app, length_app, IH. f_equal.
    rewrite findNodes_filter. apply filter_selected_length, visit_values.
  - apply IH.
Qed.

(** The size of a query's result, node by node. *)
Lemma find_size nodeType filter node :
  length (findNodes node nodeType filter)
  = (if selected nodeType filter (mkNodePath node []) then 1 else 0)
    + match node_body node with
      | Some body => found_in nodeType filter body
      | None => 0
      end.
Proof.
  rewrite findNodes_filter, visit_unfold. simpl.
  destruct (selected nodeType filter (mkNodePath node [])); simpl;
    (destruct (node_body node); [by rewrite body_visits_found | done]).
Qed.

Lemma getProp_with_body node body' key :
  (∀ v, strict_eq (getProp (with_body node body') key) v
        = strict_eq (getProp node key) v)
  ∧ getProp (with_body node body') "arguments" = getProp node "arguments".
Proof.
  split; [|by destruct node as [| | | | | | | | | |? ? ? [?|] ?]].
  intros v.
  destruct node as [| | | | | | | | | |? ? ? [?|] ?]; try reflexivity;
    unfold getProp; simpl;
    destruct (String.eqb key "type"); try reflexivity;
    destruct (String.eqb key "loc"); try reflexivity;
    repeat (match goal with
            | |- context [String.eqb key ?k] => destruct (String.eqb key k)
            end; try reflexivity).
Qed.

Lemma forallb_pointwise {A : Type} (f g : A → bool) (l : list A) :
  (∀ x, f x = g x) → forallb f l = forallb g l.
Proof. intros H. induction l as [|x l IH]; simpl; [done | by rewrite H, IH]. Qed.

(** A node is selected or not whatever its body holds: the body array stays
    the same object when it is written. *)
Lemma selected_with_body nodeType filter node body' p p' :
  selected nodeType filter (mkNodePath (with_body node body') p)
  = selected nodeType filter (mkNodePath node p').
Proof.
  unfold selected. simpl. f_equal.
  - f_equal. f_equal. rewrite <- (node_type_shell (with_body node body')).
    by rewrite shell_with_body, node_type_shell.
  - unfold matchesFilter. apply forallb_pointwise. intros key.
    destruct (getProp_with_body node body' key) as [Hkey Hargs].
    simpl. by rewrite Hargs, Hkey.
Qed.

Lemma found_in_app nodeType filter a b :
  found_in nodeType filter (a ++ b)
  = found_in nodeType filter a + found_in nodeType filter b.
Proof. unfold found_in. by rewrite map_app, list_sum_app. Qed.

Lemma found_in_insert nodeType filter body i old new :
  body !! i = Some old →
  found_in nodeType filter (<[i := new]> body) + found_in nodeType filter [old]
  = found_in nodeType filter body + found_in nodeType filter [new].
Proof.
  intros Hi. rewrite <- (take_drop_middle body i old Hi) at 2.
  rewrite insert_take_drop by (by eapply lookup_lt_Some).
  rewrite !found_in_app.
  change (new :: drop (S i) body) with ([new] ++ drop (S i) body).
  change (old :: drop (S i) body) with ([old] ++ drop (S i) body).
  rewrite !found_in_app. lia.
Qed.

(** The effect of a write to the body at [pp] on the size of a query. *)
Lemma store_find_size nodeType filter root pp parent body body' :
  getNodeFrom (Some root) pp = Some parent →
  node_body parent = Some body →
  length (findNodes (storeBody root pp body') nodeType filter)
  + found_in nodeType filter body
  = length (findNodes root nodeType filter) + found_in nodeType filter body'.
Proof.
  revert root. induction pp as [|x pp IH]; intros root Hparent Hbody;
    simpl in *.
  - injection Hparent as ->. rewrite !find_size.
    erewrite node_body_with_body by done.
    rewrite (selected_with_body _ _ parent body' [] []), Hbody. lia.
  - destruct (node_body root) as [b|] eqn:Hb; [|discriminate].
    destruct (body_at b (pi_index x)) as [child|] eqn:Hchild;
      [|by rewrite getNodeFrom_None in Hparent].
    specialize (IH child Hparent Hbody).
    rewrite !find_size. erewrite node_body_with_body by done.
    rewrite (selected_with_body _ _ root _ [] []), Hb.
    assert (b !! pi_index x = Some (Some child)) as Hx.
    { unfold body_at in Hchild.
      destruct (b !! pi_index x) as [[c|]|]; simpl in Hchild; congruence. }
    pose proof (found_in_insert nodeType filter b (pi_index x) (Some child)
                  (Some (storeBody child pp body')) Hx) as Hins.
    unfold found_in at 2 4 in Hins. simpl in Hins. lia.
Qed.

Lemma found_in_splice_insert nodeType filter body start x :
  found_in nodeType filter (splice_insert body start x)
  = found_in nodeType filter body + length (findNodes x nodeType filter).
Proof.
  unfold splice_insert.
  change (Some x :: drop start body) with ([Some x] ++ drop start body).
  rewrite !found_in_app. rewrite <- (take_drop start body) at 3.
  rewrite found_in_app. unfold found_in at 2. simpl. lia.
Qed.

Lemma found_in_splice_remove nodeType filter body start old :
  body !! start = Some old →
  found_in nodeType filter (splice_remove body start)
  + found_in nodeType filter [old]
  = found_in nodeType filter body.
Proof.
  intros Hi. unfold splice_remove.
  rewrite <- (take_drop_middle body start old Hi) at 3.
  change (old :: drop (S start) body) with ([old] ++ drop (S start) body).
  rewrite !found_in_app. replace (start + 1) with (S start) by lia. lia.
Qed.

(** X11. Querying again after a mutation through a handle whose path
    resolves, on a tree in which no object occurs twice and with a node X
    built from objects that do not occur in the tree (X is not the tree,
    a part of it or a node that holds a part of it): after insertBefore or
    insertAfter of X the result has grown by the number of matching nodes
    in X; after remove it has shrunk by the number of matching nodes in the
    removed subtree (so a removed node and what it holds are no longer
    found); after replace both. *)
Theorem find_size_after_mutation
    (root : ASTNode) (h : NodePath) (pp : list PathItem) (lastPath : PathItem)
    (parent : ASTNode) (body : list (option ASTNode)) (old X : ASTNode)
    (nodeType : jsval) (filter : gmap string jsval)
    (Hfresh : fresh_for root X)
    (Hpath : np_path h = pp ++ [lastPath])
    (Hparent : getNodeAtPath (Some root) pp = Some parent)
    (Hbody : node_body parent = Some body)
    (Hold : body !! pi_index lastPath = Some (Some old)) :
  let size := λ tree : option ASTNode,
    from_option (λ r, sizeCollection (findNodes r nodeType filter)) 0 tree in
  let size_in := λ node, sizeCollection (findNodes node nodeType filter) in
  size (handle_insertBefore h X (Some root)) = size (Some root) + size_in X ∧
  size (handle_insertAfter h X (Some root)) = size (Some root) + size_in X ∧
  size (handle_remove h (Some root)) + size_in old = size (Some root) ∧
  size (handle_replace h X (Some root)) + size_in old
    = size (Some root) + size_in X.
Proof.
  intros size size_in.
  assert (pi_index lastPath < length body) as Hlt by (by eapply lookup_lt_Some).
  erewrite insertBefore_resolved, insertAfter_resolved, remove_resolved,
    replace_resolved by done.
  unfold size, size_in, sizeCollection. simpl.
  pose proof (λ b', store_find_size nodeType filter root pp parent body b'
                      Hparent Hbody) as Hstore.
  pose proof (Hstore (splice_insert body (pi_index lastPath) X)) as HB.
  pose proof (Hstore (splice_insert body (pi_index lastPath + 1) X)) as HA.
  pose proof (Hstore (splice_remove body (pi_index lastPath))) as HR.
  pose proof (Hstore (<[pi_index lastPath := Some X]> body)) as HP.
  rewrite found_in_splice_insert in HB, HA.
  pose proof (found_in_splice_remove nodeType filter body _ _ Hold) as HR'.
  pose proof (found_in_insert nodeType filter body _ _ (Some X) Hold) as HP'.
  unfold found_in at 2 in HR'. unfold found_in at 2 4 in HP'.
  simpl in HR', HP'. lia.
Qed.

Lemma find_size_after_mutation_witness :
  let size := λ tree : option ASTNode,
    from_option (λ r, sizeCollection (findNodes r (VStr "Command") ∅)) 0 tree in
  fresh_for sample_tree sample_block ∧
  size (handle_insertBefore sample_handle sample_block (Some sample_tree))
    = size (Some sample_tree) + 2 ∧
  size (handle_remove sample_handle (Some sample_tree)) + 1
    = size (Some sample_tree).
Proof.
  intros size.
  assert (fresh_for sample_tree sample_block) as Hfresh.
  { apply (bool_decide_unpack _). vm_compute. reflexivity. }
  split; [exact Hfresh|].
  destruct (find_size_after_mutation sample_tree sample_handle
              [mkPathItem sample_subshell 1]
              (mkPathItem (NCommand (echo 4 "b")) 1) sample_subshell
              [Some (NCommand (echo 3 "a")); Some (NCommand (echo 4 "b"))]
              (NCommand (echo 4 "b")) sample_block (VStr "Command") ∅
              Hfresh eq_refl eq_refl eq_refl eq_refl)
    as (HB & _ & HR & _).
  assert (sizeCollection (findNodes sample_block (VStr "Command") ∅) = 2)
    as Hsub by (vm_compute; reflexivity).
  assert (sizeCollection (findNodes (NCommand (echo 4 "b")) (VStr "Command") ∅) = 1)
    as Hold by (vm_compute; reflexivity).
  cbv beta zeta in HB, HR. rewrite Hsub in HB. rewrite Hold in HR.
  split; [exact HB | exact HR].
Defined.

(** ** Source generation *)

Lemma list_sum_elem (f : ASTNode → nat) (l : list ASTNode) (x : ASTNode) :
  x ∈ l → f x ≤ list_sum (map f l).
Proof.
  induction l as [|y l IH]; intros Hin; [by apply elem_of_nil in Hin|].
  apply elem_of_cons in Hin as [<- | Hin]; simpl; [lia|].
  specialize (IH Hin). lia.
Qed.

Lemma slots_sum_elem (f : ASTNode → nat) (body : list (option ASTNode)) child :
  Some child ∈ body →
  f child ≤ list_sum (map (λ slot, match slot with
                                    | Some c => f c
                                    | None => 0
                                    end) body).
Proof.
  induction body as [|slot body IH]; intros Hin; [by apply elem_of_nil in Hin|].
  apply elem_of_cons in Hin as [<- | Hin]; simpl; [lia|].
  specialize (IH Hin). lia.
Qed.

Lemma map_slots_ext (f g : ASTNode → string) body :
  (∀ child, Some child ∈ body → f child = g child) →
  map_slots f body = map_slots g body.
Proof.
  intros H. unfold map_slots. induction body as [|[c|] body IH]; simpl; [done|..].
  - rewrite (H c) by apply list_elem_of_here. f_equal.
    apply IH. intros c' Hc'. apply H. by apply list_elem_of_further.
  - f_equal. apply IH. intros c' Hc'. apply H. by apply list_elem_of_further.
Qed.

Lemma map_ext_elem {A B : Type} (f g : A → B) (l : list A) :
  (∀ x, x ∈ l → f x = g x) → map f l = map g l.
Proof.
  intros H. induction l as [|x l IH]; simpl; [done|].
  rewrite (H x) by apply list_elem_of_here. f_equal.
  apply IH. intros y Hy. apply H. by apply list_elem_of_further.
Qed.

(** The generator reads its options through the line ending alone. *)
Lemma astToSource_lineEnding o1 o2 :
  lineEnding_of o1 = lineEnding_of o2 →
  ∀ node, astToSource node o1 = astToSource node o2.
Proof.
  intros Hle.
  assert (∀ k node, tree_size node < k → astToSource node o1 = astToSource node o2)
    as Hall; [|intros node; apply (Hall (S (tree_size node))); lia].
  induction k as [|k IH]; intros node Hk; [lia|].
  assert (∀ body, list_sum (map (λ slot, match slot with
                                         | Some c => tree_size c
                                         | None => 0
                                         end) body) < k →
                  map_slots (λ child, astToSource child o1) body
                  = map_slots (λ child, astToSource child o2) body) as Hslots.
  { intros body Hsum. apply map_slots_ext. intros c Hc. apply IH.
    pose proof (slots_sum_elem tree_size body c Hc). lia. }
  assert (∀ l, list_sum (map tree_size l) < k →
               map (λ child, "  " +:+ astToSource child o1) l
               = map (λ child, "  " +:+ astToSource child o2) l) as Hnodes.
  { intros l Hsum. apply map_ext_elem. intros c Hc. f_equal. apply IH.
    pose proof (list_sum_elem tree_size l c Hc). lia. }
  destruct node as [oid body loc|c|oid name value ex ro loc
                    |oid cond cons alt loc|oid kind var cond body loc
                    |oid name params body loc|oid cmds neg loc|r
                    |oid body loc|oid value kind loc|oid ty unk body loc];
    simpl in Hk |- *; rewrite ?Hle; try reflexivity.
  - by rewrite Hslots by lia.
  - rewrite (Hnodes cons) by lia.
    destruct alt as [| |alt]; try reflexivity.
    by rewrite (Hnodes alt) by lia.
  - destruct kind; try reflexivity; by rewrite Hslots by lia.
  - by rewrite Hslots by lia.
  - by rewrite Hslots by lia.
Qed.

(** X12. The generator ignores the [quote] and [indent] options, and an
    empty [lineEnding] counts as none: two option records that yield the
    same line ending (the given one if it is non-empty, a line feed
    otherwise) yield the same text for every node. *)
Theorem generator_reads_only_the_line_ending
    (node : ASTNode) (o1 o2 : SourceOptions)
    (Hsame : lineEnding_of o1 = lineEnding_of o2) :
  generateSource node o1 = generateSource node o2.
Proof. by apply astToSource_lineEnding. Qed.

Lemma generator_reads_only_the_line_ending_witness :
  generateSource sample_tree (mkSourceOptions (Some QDouble) (Some 4%Z) (Some ""))
  = generateSource sample_tree default_options.
Proof.
  apply (generator_reads_only_the_line_ending sample_tree
           (mkSourceOptions (Some QDouble) (Some 4%Z) (Some "")) default_options).
  reflexivity.
Defined.




(** ** Normalizer *)

Lemma walkNode_eq node source :
  walkNode node source
  = let walk := λ child, walkNode child source in
    let type := raw_type node in
    if String.eqb type "Script" then
      match raw_body node with
      | Some (Many children) => walk_each walk children
      | Some (One _) => throw TypeError
      | None => mret []
      end
    else if String.eqb type "Command" then
      c ← convertCommand node source; mret [NCommand c]
    else if String.eqb type "Assignment" then
      v ← convertVariableAssignment node source; mret [v]
    else if String.eqb type "If" then
      oid ← fresh;
      condition ← getNodeText (raw_condition node) source;
      consequent ← extract_body walk (raw_then node);
      alternate ←
        match raw_else node with
        | Some e => alt ← extract_body walk (Some e); mret (Present alt)
        | None => mret Null
        end;
      mret [NConditional oid condition consequent alternate (getLocation node)]
    else if String.eqb type "For" then
      oid ← fresh;
      body ← extract_body walk (raw_body node);
      mret [NLoop oid KFor (Some (or_empty (raw_variable node))) None
              (dense body) (getLocation node)]
    else if String.eqb type "While" then
      oid ← fresh;
      condition ← getNodeText (raw_condition node) source;
      body ← extract_body walk (raw_body node);
      mret [NLoop oid KWhile None (Some condition) (dense body) (getLocation node)]
    else if String.eqb type "Function" then
      oid ← fresh;
      body ← extract_body walk (raw_body node);
      mret [NFunction oid (or_empty (raw_name node))
              (Some (default [] (raw_parameters node))) (dense body)
              (getLocation node)]
    else if String.eqb type "Pipeline" then
      p ← convertPipeline node source; mret [p]
    else if String.eqb type "Subshell" then
      oid ← fresh;
      body ← extract_body walk (raw_body node);
      mret [NSubshell oid (dense body) (getLocation node)]
    else if String.eqb type "Comment" then
      c ← convertComment node source; mret [c]
    else
      match raw_body node with
      | Some (Many children) => walk_each walk children
      | _ => mret []
      end.
Proof. destruct node. reflexivity. Qed.

Lemma bind_Return {A B : Type} (m : Conv A) (k : A → Conv B) next r :
  (m ≫= k) next = Return r →
  ∃ a next1, m next = Return (a, next1) ∧ k a next1 = Return r.
Proof.
  unfold mbind, Conv_bind. destruct (m next) as [[a next1]|e]; [eauto | discriminate].
Qed.

Lemma mret_Return {A : Type} (a : A) next r :
  (mret a : Conv A) next = Return r → r = (a, next).
Proof. unfold mret, Conv_ret. congruence. Qed.

Lemma raw_size_eq node :
  raw_size node
  = let many := λ b : option (one_or_many RawNode),
      match b with
      | Some (Many children) => list_sum (map raw_size children)
      | Some (One child) => raw_size child
      | None => 0
      end in
    S (many (raw_body node) + many (raw_then node) + many (raw_else node)).
Proof. destruct node. reflexivity. Qed.

Lemma raw_sum_elem (l : list RawNode) (x : RawNode) :
  x ∈ l → raw_size x ≤ list_sum (map raw_size l).
Proof.
  induction l as [|y l IH]; intros Hin; [by apply elem_of_nil in Hin|].
  apply elem_of_cons in Hin as [<- | Hin]; simpl; [lia|].
  specialize (IH Hin). lia.
Qed.

Lemma walk_each_Forall (P : ASTNode → Prop) f children :
  (∀ c, c ∈ children →
     ∀ next l next', f c next = Return (l, next') → Forall P l) →
  ∀ next l next', walk_each f children next = Return (l, next') → Forall P l.
Proof.
  induction children as [|c children IH]; intros Hf next l next' Hrun; simpl in Hrun.
  - apply mret_Return in Hrun. injection Hrun as -> _. constructor.
  - apply bind_Return in Hrun as (xs & n1 & Hc & Hrun).
    apply bind_Return in Hrun as (ys & n2 & Hrest & Hrun).
    apply mret_Return in Hrun. injection Hrun as -> _.
    apply Forall_app. split.
    + eapply Hf; [apply list_elem_of_here | exact Hc].
    + eapply IH; [|exact Hrest]. intros c' Hc'. apply Hf.
      by apply list_elem_of_further.
Qed.

Lemma extract_body_Forall (P : ASTNode → Prop) f b bound :
  match b with
  | Some (Many children) => list_sum (map raw_size children)
  | Some (One child) => raw_size child
  | None => 0
  end < bound →
  (∀ c, raw_size c < bound →
     ∀ next l next', f c next = Return (l, next') → Forall P l) →
  ∀ next l next', extract_body f b next = Return (l, next') → Forall P l.
Proof.
  intros Hsize Hf next l next' Hrun. destruct b as [[c|children]|]; simpl in *.
  - by eapply Hf.
  - eapply walk_each_Forall; [|exact Hrun]. intros c Hc. apply Hf.
    pose proof (raw_sum_elem children c Hc). lia.
  - apply mret_Return in Hrun. injection Hrun as -> _. constructor.
Qed.

Lemma normalized_dense body :
  Forall (λ n, normalized n = true) body →
  forallb (λ slot, match slot with
                   | Some child => normalized child
                   | None => false
                   end) (dense body) = true.
Proof.
  induction 1 as [|n body Hn _ IH]; simpl; [done|]. by rewrite Hn, IH.
Qed.

Lemma forallb_Forall_true {A : Type} (f : A → bool) (l : list A) :
  Forall (λ x, f x = true) l → forallb f l = true.
Proof. induction 1 as [|x l Hx _ IH]; simpl; [done|]. by rewrite Hx, IH. Qed.

(** Everything [walkNode] pushes onto a body is normalized. *)
Lemma walkNode_normalized source :
  ∀ bound node, raw_size node < bound →
    ∀ next l next', walkNode node source next = Return (l, next') →
      Forall (λ n, normalized n = true) l.
Proof.
  induction bound as [|bound IH]; intros node Hsize next l next' Hrun; [lia|].
  rewrite raw_size_eq in Hsize. simpl in Hsize.
  rewrite walkNode_eq in Hrun. cbv zeta in Hrun.
  pose proof (λ b Hb, extract_body_Forall (λ n, normalized n = true)
                        (λ child, walkNode child source) b bound Hb IH) as Hextract.
  repeat match type of Hrun with
         | (if ?c then _ else _) _ = _ => destruct c
         end.
  - (* Script *) destruct (raw_body node) as [[c|children]|] eqn:Hb.
    + discriminate.
    + apply (Hextract (Some (Many children))) in Hrun; [done | simpl; lia].
    + apply mret_Return in Hrun. injection Hrun as -> _. constructor.
  - (* Command *) apply bind_Return in Hrun as (c & n1 & _ & Hrun).
    apply mret_Return in Hrun. injection Hrun as -> _. by repeat constructor.
  - (* Assignment *) apply bind_Return in Hrun as (v & n1 & Hv & Hrun).
    apply mret_Return in Hrun. injection Hrun as -> _.
    unfold convertVariableAssignment in Hv.
    apply bind_Return in Hv as (oid & n2 & _ & Hv).
    apply mret_Return in Hv. injection Hv as -> _. by repeat constructor.
  - (* If *) apply bind_Return in Hrun as (oid & n1 & _ & Hrun).
    apply bind_Return in Hrun as (cond & n2 & _ & Hrun).
    apply bind_Return in Hrun as (cons & n3 & Hcons & Hrun).
    apply bind_Return in Hrun as (alt & n4 & Halt & Hrun).
    apply mret_Return in Hrun. injection Hrun as -> _.
    apply Hextract in Hcons; [|lia].
    constructor; [|constructor]. simpl.
    rewrite (forallb_Forall_true _ _ Hcons). simpl.
    destruct (raw_else node) as [e|] eqn:He.
    + apply bind_Return in Halt as (a & n5 & Ha & Halt).
      apply mret_Return in Halt. injection Halt as -> _.
      apply Hextract in Ha; [|lia]. by apply forallb_Forall_true.
    + apply mret_Return in Halt. by injection Halt as -> _.
  - (* For *) apply bind_Return in Hrun as (oid & n1 & _ & Hrun).
    apply bind_Return in Hrun as (body & n2 & Hbody & Hrun).
    apply mret_Return in Hrun. injection Hrun as -> _.
    apply Hextract in Hbody; [|lia].
    constructor; [|constructor]. simpl. by apply normalized_dense.
  - (* While *) apply bind_Return in Hrun as (oid & n1 & _ & Hrun).
    apply bind_Return in Hrun as (cond & n2 & _ & Hrun).
    apply bind_Return in Hrun as (body & n3 & Hbody & Hrun).
    apply mret_Return in Hrun. injection Hrun as -> _.
    apply Hextract in Hbody; [|lia].
    constructor; [|constructor]. simpl. by apply normalized_dense.
  - (* Function *) apply bind_Return in Hrun as (oid & n1 & _ & Hrun).
    apply bind_Return in Hrun as (body & n2 & Hbody & Hrun).
    apply mret_Return in Hrun. injection Hrun as -> _.
    apply Hextract in Hbody; [|lia].
    constructor; [|constructor]. simpl. by apply normalized_dense.
  - (* Pipeline *) apply bind_Return in Hrun as (p & n1 & Hp & Hrun).
    apply mret_Return in Hrun. injection Hrun as -> _.
    unfold convertPipeline in Hp.
    apply bind_Return in Hp as (oid & n2 & _ & Hp).
    apply bind_Return in Hp as (cmds & n3 & _ & Hp).
    apply mret_Return in Hp. injection Hp as -> _. by repeat constructor.
  - (* Subshell *) apply bind_Return in Hrun as (oid & n1 & _ & Hrun).
    apply bind_Return in Hrun as (body & n2 & Hbody & Hrun).
    apply mret_Return in Hrun. injection Hrun as -> _.
    apply Hextract in Hbody; [|lia].
    constructor; [|constructor]. simpl. by apply normalized_dense.
  - (* Comment *) apply bind_Return in Hrun as (c & n1 & Hc & Hrun).
    apply mret_Return in Hrun. injection Hrun as -> _.
    unfold convertComment in Hc.
    apply bind_Return in Hc as (oid & n2 & _ & Hc).
    apply mret_Return in Hc. injection Hc as -> _. by repeat constructor.
  - (* any other type *) destruct (raw_body node) as [[c|children]|] eqn:Hb.
    + apply mret_Return in Hrun. injection Hrun as -> _. constructor.
    + apply (Hextract (Some (Many children))) in Hrun; [done | simpl; lia].
    + apply mret_Return in Hrun. injection Hrun as -> _. constructor.
Qed.

Lemma normalized_child node body index child :
  normalized node = true → node_body node = Some body →
  body_at body index = Some child → normalized child = true.
Proof.
  intros Hnode Hbody Hchild.
  assert (forallb (λ slot, match slot with
                           | Some c => normalized c
                           | None => false
                           end) body = true) as Hslots.
  { destruct node as [| | | | | | | | | |? ? ? [?|] ?]; simpl in *;
      try discriminate; injection Hbody as <-;
      repeat (apply andb_true_iff in Hnode as [? Hnode]); done. }
  rewrite forallb_forall in Hslots.
  unfold body_at in Hchild.
  destruct (body !! index) as [[c|]|] eqn:Hi; simpl in Hchild; try discriminate.
  injection Hchild as ->.
  apply (Hslots (Some child)). apply list_elem_of_In.
  by eapply list_elem_of_lookup_2.
Qed.

Lemma normalized_below node q m :
  normalized node = true → getNodeFrom (Some node) q = Some m →
  normalized m = true.
Proof.
  revert node. induction q as [|x q IH]; intros node Hnode Hq; simpl in Hq.
  - by injection Hq as <-.
  - destruct (node_body node) as [body|] eqn:Hbody; [|discriminate].
    destruct (body_at body (pi_index x)) as [child|] eqn:Hchild;
      [|by rewrite getNodeFrom_None in Hq].
    eapply IH; [|exact Hq]. by eapply normalized_child.
Qed.

Lemma parse_Return parseBash options source next r :
  parse parseBash options source next = Return r →
  ∃ raw, parseBash source options = Return raw ∧
         convertToJSCodeshiftAST raw source next = Return r.
Proof.
  unfold parse, try_catch. destruct (parseBash source options) as [raw|e].
  - destruct (convertToJSCodeshiftAST raw source next) as [r'|e] eqn:Hconv;
      [|discriminate].
    intros H. exists raw. split; [done | congruence].
  - discriminate.
Qed.

(** X14. Whatever the external parser returns, a tree that [parse] returns
    is a Program whose body is dense, and every node below the root, at any
    depth, is of one of the nine statement kinds the converter builds, with
    the fields the converter sets: never a node of unknown kind, a nested
    Program or a Redirect in a body, never an [until] loop, never an empty
    slot. *)
Theorem parser_output_is_normalized
    (parseBash : string → ParserOptions → outcome RawNode)
    (options : ParserOptions) (source : string) (next next' : nat)
    (tree : ASTNode)
    (Hparse : parse parseBash options source next = Return (tree, next')) :
  (∃ oid stmts loc,
     tree = NProgram oid (dense stmts) loc ∧
     Forall (λ n, normalized n = true) stmts) ∧
  (∀ q node, q ≠ [] → getNodeAtPath (Some tree) q = Some node →
             normalized node = true ∧ known_kind (node_type node) = true ∧
             node_type node ≠ "Program" ∧ node_type node ≠ "Redirect") ∧
  (∀ q node body, getNodeAtPath (Some tree) q = Some node →
                  node_body node = Some body → None ∉ body).
Proof.
  apply parse_Return in Hparse as (raw & _ & Hconv).
  unfold convertToJSCodeshiftAST in Hconv.
  apply bind_Return in Hconv as (oid & n1 & _ & Hconv).
  apply bind_Return in Hconv as (stmts & n2 & Hwalk & Hconv).
  apply mret_Return in Hconv. injection Hconv as -> _.
  apply (walkNode_normalized source (S (raw_size raw))) in Hwalk; [|lia].
  assert (∀ q node, q ≠ [] →
            getNodeFrom (Some (NProgram oid (dense stmts) (getLocation raw))) q
            = Some node → normalized node = true) as Hbelow.
  { intros [|x q] node Hq Hres; [done|]. simpl in Hres.
    destruct (body_at (dense stmts) (pi_index x)) as [child|] eqn:Hchild;
      [|by rewrite getNodeFrom_None in Hres].
    eapply normalized_below; [|exact Hres].
    unfold body_at, dense in Hchild. rewrite list_lookup_fmap in Hchild.
    destruct (stmts !! pi_index x) as [c|] eqn:Hc; simpl in Hchild;
      [|discriminate].
    injection Hchild as <-. rewrite Forall_forall in Hwalk.
    apply Hwalk. by eapply list_elem_of_lookup_2. }
  split; [eauto|]. split.
  - intros q node Hq Hres. specialize (Hbelow q node Hq Hres).
    split; [done|].
    destruct node; simpl in *; try discriminate; repeat split; done.
  - intros q node body Hres Hbody Hhole.
    destruct q as [|x q].
    + simpl in Hres. injection Hres as <-. simpl in Hbody. injection Hbody as <-.
      unfold dense in Hhole. apply list_elem_of_fmap in Hhole as (n & Hn & _).
      discriminate.
    + specialize (Hbelow (x :: q) node ltac:(done) Hres).
      assert (forallb (λ slot, match slot with
                               | Some c => normalized c
                               | None => false
                               end) body = true) as Hslots.
      { destruct node as [| | | | | | | | | |? ? ? [?|] ?]; simpl in *;
          try discriminate; injection Hbody as <-;
          repeat (apply andb_true_iff in Hbelow as [? Hbelow]); done. }
      rewrite forallb_forall in Hslots.
      specialize (Hslots None ltac:(by apply list_elem_of_In)). discriminate.
Qed.

Lemma parser_output_is_normalized_witness :
  ∃ oid stmts loc,
    NProgram 0 [Some (NCommand (mkCommand 1 "npm" ["install"] None None))] None
    = NProgram oid (dense stmts) loc ∧
    Forall (λ n, normalized n = true) stmts.
Proof.
  exact (proj1 (parser_output_is_normalized (λ _ _, Return raw_npm_install)
                  (BashParser_options (mkParserOptions None None None))
                  "npm install" 0 2 _ eq_refl)).
Defined.

Lemma walk_each_cons f child rest next :
  walk_each f (child :: rest) next
  = match f child next with
    | Return (xs, n1) =>
        match walk_each f rest n1 with
        | Return (ys, n2) => Return (xs ++ ys, n2)
        | Throw e => Throw e
        end
    | Throw e => Throw e
    end.
Proof.
  simpl. unfold mbind, Conv_bind. destruct (f child next) as [[xs n1]|e]; [|done].
  by destruct (walk_each f rest n1) as [[ys n2]|e].
Qed.

Lemma walkNode_raw_command name args source next :
  walkNode (raw_command name args) source next
  = Return ([NCommand (mkCommand next name args None None)], S next).
Proof. reflexivity. Qed.

Lemma walk_commands source (cmds : list (string * list string)) options :
  ∀ next, ∃ stmts next',
    walk_each (λ child, walkNode child source)
      (map (λ c, raw_command c.1 c.2) cmds) next = Return (stmts, next') ∧
    map_slots (λ child, astToSource child options) (dense stmts)
    = map (λ c, command_line c.1 c.2) cmds.
Proof.
  induction cmds as [|[name args] cmds IH]; intros next.
  - exists [], next. done.
  - destruct (IH (S next)) as (stmts & next' & Hrest & Htexts).
    exists (NCommand (mkCommand next name args None None) :: stmts), next'.
    split.
    + cbn [map fst snd]. rewrite walk_each_cons, walkNode_raw_command.
      by rewrite Hrest.
    + simpl. rewrite <- Htexts. f_equal.
      unfold commandToSource, command_line. simpl. by destruct args.
Qed.

(** X15. A script of plain commands comes back one command per line.  When
    the external parser returns a Script holding Commands with their names
    and arguments, [parse] succeeds and the generated source is the
    commands in order, each as its name followed by its arguments separated
    by single spaces, joined by the line ending. *)
Theorem plain_commands_regenerate
    (parseBash : string → ParserOptions → outcome RawNode)
    (parser_options : ParserOptions) (source : string) (next : nat)
    (cmds : list (string * list string)) (options : SourceOptions)
    (Hraw : parseBash source parser_options
            = Return (raw_script (map (λ c, raw_command c.1 c.2) cmds))) :
  ∃ tree next',
    parse parseBash parser_options source next = Return (tree, next') ∧
    generateSource tree options
    = join (lineEnding_of options) (map (λ c, command_line c.1 c.2) cmds).
Proof.
  destruct (walk_commands source cmds options (S next))
    as (stmts & next' & Hwalk & Htexts).
  exists (NProgram next (dense stmts) None), next'. split.
  - unfold parse, try_catch. rewrite Hraw.
    unfold convertToJSCodeshiftAST.
    unfold mbind at 1, Conv_bind, fresh. unfold mbind at 1, Conv_bind.
    rewrite walkNode_eq. cbv zeta.
    change (String.eqb (raw_type (raw_script _)) "Script") with true.
    cbv iota. change (raw_body (raw_script ?c)) with (Some (Many c)).
    cbv iota. rewrite Hwalk. reflexivity.
  - unfold generateSource. simpl. by rewrite Htexts.
Qed.

Lemma plain_commands_regenerate_witness :
  ∃ tree next',
    parse (λ _ _, Return (raw_script [raw_command "git" ["checkout"; "-b"; "feature"];
                                      raw_command "ls" []]))
      (BashParser_options (mkParserOptions None None None)) "" 0
    = Return (tree, next') ∧
    generateSource tree default_options
    = "git checkout -b feature" +:+ LF +:+ "ls".
Proof.
  apply (plain_commands_regenerate
           (λ _ _, Return (raw_script [raw_command "git" ["checkout"; "-b"; "feature"];
                                       raw_command "ls" []]))
           (BashParser_options (mkParserOptions None None None)) "" 0
           [("git", ["checkout"; "-b"; "feature"]); ("ls", [])] default_options).
  reflexivity.
Defined.

(** X16. Every failure of [parse] is reported the same way: the error
    carries the text "Failed to parse bash source: " followed by the
    message of its cause, and the cause is either the external parser's
    error or an error raised while converting the tree the parser
    returned (a condition located past the end of the source, say). *)
Theorem parse_failures_are_wrapped
    (parseBash : string → ParserOptions → outcome RawNode)
    (options : ParserOptions) (source : string) (next : nat)
    (failure : JsError)
    (Hfail : parse parseBash options source next = Throw failure) :
  ∃ cause,
    message failure = "Failed to parse bash source: " +:+ message cause ∧
    (parseBash source options = Throw cause ∨
     ∃ raw, parseBash source options = Return raw ∧
            convertToJSCodeshiftAST raw source next = Throw cause).
Proof.
  unfold parse, try_catch, throw in Hfail.
  destruct (parseBash source options) as [raw|e] eqn:Hparser.
  - destruct (convertToJSCodeshiftAST raw source next) as [r|e] eqn:Hconv;
      [discriminate|].
    injection Hfail as <-. exists e. split; [done|]. right. eauto.
  - injection Hfail as <-. exists e. split; [done|]. by left.
Qed.

Lemma parse_failures_are_wrapped_witness :
  let located := mkRaw "Word" (Some (mkLocation (mkPosition 3 0) (mkPosition 3 4)))
                   None None None None None None None None None None None None
                   None None None None None None in
  let raw_if := mkRaw "If" None None None None None None None
                  (Some (inr located)) None None None None None None None None
                  None None None in
  let parseBash : string → ParserOptions → outcome RawNode :=
    λ _ _, Return (raw_script [raw_if]) in
  ∃ cause,
    "Failed to parse bash source: TypeError"
    = "Failed to parse bash source: " +:+ message cause ∧
    (parseBash "if x" (mkParserOptions None None None) = Throw cause ∨
     ∃ raw, parseBash "if x" (mkParserOptions None None None) = Return raw ∧
            convertToJSCodeshiftAST raw "if x" 0 = Throw cause).
Proof.
  intros located raw_if parseBash.
  exact (parse_failures_are_wrapped parseBash (mkParserOptions None None None)
           "if x" 0 (mkError "Failed to parse bash source: TypeError") eq_refl).
Defined.

(** ** Text extraction *)

Lemma split_lines_cons s : ∃ first others, split_lines s = first :: others.
Proof.
  induction s as [|c s (first & others & IH)]; simpl; [eauto|].
  destruct (Ascii.eqb c _); [eauto|]. rewrite IH. eauto.
Qed.

Lemma join_cons_char sep c first others :
  join sep (String c first :: others) = String c (join sep (first :: others)).
Proof. by destruct others. Qed.

(** Splitting at line feeds and joining with line feeds gives the text
    back. *)
Lemma join_split_lines s : join LF (split_lines s) = s.
Proof.
  induction s as [|c s IH]; [done|]. simpl.
  destruct (split_lines_cons s) as (first & others & Hs).
  destruct (Ascii.eqb c (Ascii.ascii_of_nat 10)) eqn:Hc.
  - apply Ascii.eqb_eq in Hc as ->. rewrite Hs in IH |- *.
    change (join LF ("" :: first :: others))
      with (String (Ascii.ascii_of_nat 10) (join LF (first :: others))).
    by rewrite IH.
  - rewrite Hs in IH |- *. by rewrite join_cons_char, IH.
Qed.

Lemma substring_all s : String.substring 0 (String.length s) s = s.
Proof. induction s as [|c s IH]; simpl; [done | by rewrite IH]. Qed.

Lemma js_substring_all s : js_substring s 0 (Z.of_nat (String.length s)) = s.
Proof.
  unfold js_substring.
  replace (clamp_index (String.length s) 0) with 0
    by (unfold clamp_index; lia).
  replace (clamp_index (String.length s) (Z.of_nat (String.length s)))
    with (String.length s) by (unfold clamp_index; lia).
  rewrite Nat.min_0_l, Nat.max_0_l, Nat.sub_0_r. apply substring_all.
Qed.

Lemma middle_lines (pre mid post : list string) :
  map (λ i, default "" ((pre ++ mid ++ post) !! i)) (seq (length pre) (length mid))
  = mid.
Proof.
  revert pre. induction mid as [|x mid IH]; intros pre; [done|]. simpl. f_equal.
  - by rewrite list_lookup_middle.
  - specialize (IH (pre ++ [x])). rewrite length_app in IH. simpl in IH.
    rewrite <- app_assoc in IH. simpl in IH.
    by replace (S (length pre)) with (length pre + 1) by lia.
Qed.

(** X17. [getNodeText] cuts the text of a node out of the source by its
    location (lines counted from 1, columns from 0): for a node whose
    location spans the whole source, from line 1 column 0 to the end of the
    last line, the text is the source itself, whether it is one line or
    many. *)
Theorem whole_span_text_is_the_source
    (node : RawNode) (source : string) (next : nat)
    (Hloc : raw_loc node
            = Some (mkLocation
                      (mkPosition 1 0)
                      (mkPosition
                         (Z.of_nat (length (split_lines source)))
                         (Z.of_nat (String.length
                                      (default "" (last (split_lines source)))))))) :
  getNodeText (Some (inr node)) source next = Return (source, next).
Proof.
  unfold getNodeText. rewrite Hloc. cbn [loc_start loc_end line column].
  pose proof (join_split_lines source) as Hjoin.
  destruct (split_lines_cons source) as (first & others & Hlines).
  rewrite Hlines in Hjoin |- *. rewrite <- Hjoin. clear Hjoin Hlines Hloc.
  destruct (decide (others = [])) as [-> | Hothers].
  - simpl. by rewrite js_substring_all.
  - destruct (exists_last Hothers) as (mid & lst & ->).
    assert (length (first :: mid ++ [lst]) = length mid + 2) as Hlen
      by (simpl; rewrite length_app; simpl; lia).
    assert (last (first :: mid ++ [lst]) = Some lst) as Hlast
      by (rewrite app_comm_cons; apply last_snoc).
    rewrite Hlen, Hlast. cbn [default].
    replace (Z.of_nat (length mid + 2) - 1)%Z with (Z.of_nat (length mid + 1))
      by lia.
    change (1 - 1)%Z with 0%Z.
    change (id lst) with lst.
    destruct (0 =? Z.of_nat (length mid + 1))%Z eqn:Heq;
      [apply Z.eqb_eq in Heq; lia|].
    unfold line_at.
    destruct (Z.of_nat (length mid + 1) <? 0)%Z eqn:Hneg;
      [apply Z.ltb_lt in Hneg; lia|].
    change (0 <? 0)%Z with false. cbv iota.
    rewrite Nat2Z.id. change (Z.to_nat 0) with 0.
    change ((first :: mid ++ [lst]) !! 0) with (Some first).
    assert ((first :: mid ++ [lst]) !! (length mid + 1) = Some lst) as ->.
    { change (first :: mid ++ [lst]) with ([first] ++ mid ++ [lst]).
      rewrite app_assoc.
      replace (length mid + 1) with (length ([first] ++ mid))
        by (rewrite length_app; simpl; lia).
      by apply list_lookup_middle. }
    assert (map (λ i, default "" ((first :: mid ++ [lst]) !! i))
              (seq (0 + 1) (length mid + 1 - (0 + 1))) = mid) as ->.
    { replace (length mid + 1 - (0 + 1)) with (length mid) by lia.
      apply (middle_lines [first] mid [lst]). }
    unfold js_substring_from. rewrite !js_substring_all.
    unfold mret, Conv_ret. by rewrite <- app_assoc.
Qed.

Lemma whole_span_text_is_the_source_witness :
  let source := "if [ -f x ]" +:+ LF +:+ "then" in
  let node := mkRaw "Word" (Some (mkLocation (mkPosition 1 0) (mkPosition 2 4)))
                None None None None None None None None None None None None
                None None None None None None in
  getNodeText (Some (inr node)) source 0 = Return (source, 0).
Proof.
  intros source node.
  apply (whole_span_text_is_the_source node source 0). reflexivity.
Defined.

(** ** Utilities *)

Lemma ident_char_facts c :
  is_ident_char c = true →
  is_special c = false ∧ Ascii.eqb c dollar = false ∧
  Ascii.eqb c backslash = false.
Proof.
  destruct c as [[] [] [] [] [] [] [] []]; vm_compute; intros H;
    try discriminate; done.
Qed.

Lemma ident_start_char c : is_ident_start c = true → is_ident_char c = true.
Proof.
  destruct c as [[] [] [] [] [] [] [] []]; vm_compute; intros H;
    try discriminate; done.
Qed.

Lemma special_backslash : is_special backslash = true.
Proof. reflexivity. Qed.

Lemma not_special_not_backslash c :
  is_special c = false → Ascii.eqb c backslash = false.
Proof.
  destruct c as [[] [] [] [] [] [] [] []]; vm_compute; intros H;
    try discriminate; done.
Qed.

Lemma escape_empty s : escapeBashString s = "" → s = "".
Proof. destruct s as [|c s]; [done|]. simpl. by destruct (is_special c). Qed.

(** X18. Unescaping undoes escaping: for every string,
    [unescapeBashString (escapeBashString s)] is [s]. *)
Theorem unescape_escape (s : string) :
  unescapeBashString (escapeBashString s) = s.
Proof.
  induction s as [|c s IH]; [done|].
  cbn [escapeBashString]. destruct (is_special c) eqn:Hc.
  - cbn [unescapeBashString]. rewrite Ascii.eqb_refl, Hc. cbn [andb].
    by rewrite IH.
  - destruct (escapeBashString s) as [|d rest] eqn:Hrest.
    + apply escape_empty in Hrest as ->. done.
    + cbn [unescapeBashString] in IH |- *.
      rewrite (not_special_not_backslash c Hc). cbn [andb].
      by rewrite IH.
Qed.

Lemma all_ident_escape s :
  all_chars is_ident_char s = true →
  escapeBashString s = s ∧ unescapeBashString s = s ∧
  containsVariables s = false ∧ extractVariables s = [] ∧ ident_prefix s = s.
Proof.
  induction s as [|c s IH]; [done|]. cbn [all_chars]. intros H.
  apply andb_true_iff in H as [Hc Hs].
  destruct (IH Hs) as (He & Hu & Hcv & Hev & Hp).
  destruct (ident_char_facts c Hc) as (Hspecial & Hdollar & Hback).
  cbn [escapeBashString containsVariables extractVariables ident_prefix].
  rewrite Hspecial, Hdollar, Hc, He, Hcv, Hev, Hp. cbn [andb orb].
  repeat split; try done.
  cbn [unescapeBashString]. destruct s as [|d s']; [done|].
  rewrite Hback. cbn [andb]. by rewrite Hu.
Qed.

Lemma valid_identifier_chars s :
  isValidIdentifier s = true →
  all_chars is_ident_char s = true ∧ starts_ident s = true.
Proof.
  destruct s as [|c s]; [discriminate|]. simpl. intros H.
  apply andb_true_iff in H as [Hc Hs]. by rewrite (ident_start_char c Hc), Hs.
Qed.

(** X20. A valid identifier needs no escaping and holds no variable:
    escaping and unescaping leave it as it is, [containsVariables] is
    false on it and [extractVariables] finds nothing in it. *)
Theorem identifiers_need_no_escaping (s : string)
    (Hvalid : isValidIdentifier s = true) :
  escapeBashString s = s ∧ unescapeBashString s = s ∧
  containsVariables s = false ∧ extractVariables s = [].
Proof.
  destruct (valid_identifier_chars s Hvalid) as [Hchars _].
  destruct (all_ident_escape s Hchars) as (? & ? & ? & ? & _). done.
Qed.

Lemma identifiers_need_no_escaping_witness :
  escapeBashString "API_KEY2" = "API_KEY2" ∧
  unescapeBashString "API_KEY2" = "API_KEY2" ∧
  containsVariables "API_KEY2" = false ∧ extractVariables "API_KEY2" = [].
Proof. apply (identifiers_need_no_escaping "API_KEY2"). reflexivity. Defined.

Lemma ident_prefix_chars s : all_chars is_ident_char (ident_prefix s) = true.
Proof.
  induction s as [|c s IH]; [done|]. simpl.
  destruct (is_ident_char c) eqn:Hc; [|done]. simpl. by rewrite Hc, IH.
Qed.

Lemma ident_prefix_valid s :
  starts_ident s = true → isValidIdentifier (ident_prefix s) = true.
Proof.
  destruct s as [|c s]; [discriminate|]. simpl. intros Hc.
  rewrite (ident_start_char c Hc). simpl. by rewrite Hc, ident_prefix_chars.
Qed.

(** X19. [extractVariables] and [containsVariables] agree, and what is
    extracted are identifiers: a string contains a variable exactly when
    something is extracted from it; every extracted name is a valid
    identifier; and from a dollar sign followed by a valid identifier
    exactly that identifier is extracted. *)
Theorem extracted_variables_are_identifiers (s : string) :
  (containsVariables s = true ↔ extractVariables s ≠ []) ∧
  (∀ name, name ∈ extractVariables s → isValidIdentifier name = true) ∧
  (isValidIdentifier s = true →
     extractVariables (String dollar s) = [s] ∧
     containsVariables (String dollar s) = true).
Proof.
  split; [|split].
  - induction s as [|c s IH]; [done|]. simpl.
    destruct (Ascii.eqb c dollar && starts_ident s); simpl; [done|].
    exact IH.
  - induction s as [|c s IH]; intros name Hin; simpl in Hin.
    + by apply elem_of_nil in Hin.
    + destruct (Ascii.eqb c dollar && starts_ident s) eqn:Hmatch; [|by apply IH].
      apply elem_of_cons in Hin as [-> | Hin]; [|by apply IH].
      apply andb_true_iff in Hmatch as [_ Hstart]. by apply ident_prefix_valid.
  - intros Hvalid.
    destruct (valid_identifier_chars s Hvalid) as [Hchars Hstart].
    destruct (all_ident_escape s Hchars) as (_ & _ & _ & Hnone & Hprefix).
    cbn [extractVariables containsVariables].
    rewrite Ascii.eqb_refl, Hstart, Hnone, Hprefix. done.
Qed.

Lemma extracted_variables_are_identifiers_witness :
  extractVariables (String dollar "HOME") = ["HOME"] ∧
  containsVariables (String dollar "HOME") = true.
Proof.
  destruct (extracted_variables_are_identifiers "HOME") as (_ & _ & H).
  apply H. reflexivity.
Defined.

Lemma set_option_lookup options key value k v :
  set_option options key value !! k = Some v →
  options !! k = Some v ∨ (k = key ∧ v = value ∧ key ≠ "__proto__").
Proof.
  unfold set_option. destruct (String.eqb key "__proto__") eqn:Hkey; [by left|].
  apply String.eqb_neq in Hkey.
  destruct (decide (key = k)) as [<- | Hne].
  - rewrite lookup_insert_eq. intros [= <-]. by right.
  - rewrite lookup_insert_ne by done. by left.
Qed.

Lemma parse_arguments_fold args :
  ∀ start,
    let parsed := fold_left parse_argument args start in
    pa_positional parsed
    = pa_positional start
      ++ List.filter (λ arg, negb (starts_with_dash arg)) args
    ∧ (∀ key value, pa_options parsed !! key = Some value →
         pa_options start !! key = Some value ∨
         (key ≠ "__proto__" ∧
          ∃ arg, arg ∈ args ∧ starts_with_dash arg = true ∧
                 key = option_key arg ∧ value = option_value arg)).
Proof.
  induction args as [|arg args IH]; intros start; simpl.
  - split; [by rewrite app_nil_r | by left].
  - destruct (IH (parse_argument start arg)) as [Hpos Hopt].
    unfold parse_argument in Hpos, Hopt |- *.
    destruct (starts_with_dash arg) eqn:Hdash; simpl in *.
    + split; [exact Hpos|]. intros key value Hkey.
      destruct (Hopt key value Hkey) as [Hstart | (Hk & a & Ha & Hrest)].
      * apply set_option_lookup in Hstart as [? | (-> & -> & Hk)]; [by left|].
        right. split; [done|]. exists arg.
        split; [apply list_elem_of_here | done].
      * right. split; [done|]. exists a.
        split; [by apply list_elem_of_further | done].
    + split; [by rewrite Hpos, <- app_assoc|].
      intros key value Hkey.
      destruct (Hopt key value Hkey) as [Hstart | (Hk & a & Ha & Hrest)];
        [by left|].
      right. split; [done|]. exists a.
      split; [by apply list_elem_of_further | done].
Qed.

(** X21. [parseArguments] sorts every argument to one side, keeping no
    other.  The positional arguments are exactly the arguments that do not
    start with a dash, in their order; every option comes from an argument
    that starts with a dash, under the key and with the value that
    argument gives; and the key [__proto__] is never set.  So arguments
    none of which starts with a dash come back unchanged as the positional
    ones, with no option. *)
Theorem parseArguments_partitions (args : list string) :
  pa_positional (parseArguments args)
  = List.filter (λ arg, negb (starts_with_dash arg)) args
  ∧ (∀ key value, pa_options (parseArguments args) !! key = Some value →
       ∃ arg, arg ∈ args ∧ starts_with_dash arg = true ∧
              key = option_key arg ∧ value = option_value arg)
  ∧ pa_options (parseArguments args) !! "__proto__" = None
  ∧ (Forall (λ arg, starts_with_dash arg = false) args →
       pa_options (parseArguments args) = ∅ ∧
       pa_positional (parseArguments args) = args).
Proof.
  destruct (parse_arguments_fold args (mkParsedArguments ∅ [])) as [Hpos Hopt].
  simpl in Hpos, Hopt. fold (parseArguments args) in Hpos, Hopt.
  assert (∀ key value, pa_options (parseArguments args) !! key = Some value →
            key ≠ "__proto__" ∧
            ∃ arg, arg ∈ args ∧ starts_with_dash arg = true ∧
                   key = option_key arg ∧ value = option_value arg) as Hfrom.
  { intros key value Hkey. destruct (Hopt key value Hkey) as [Hempty | H];
      [by rewrite lookup_empty in Hempty | exact H]. }
  split; [exact Hpos|]. split; [intros k v Hk; by apply Hfrom|]. split.
  - destruct (pa_options (parseArguments args) !! "__proto__") as [v|] eqn:Hp;
      [|done].
    by destruct (Hfrom _ _ Hp) as [Hne _].
  - intros Hnone. split.
    + apply map_eq. intros key. rewrite lookup_empty.
      destruct (pa_options (parseArguments args) !! key) as [v|] eqn:Hk; [|done].
      destruct (Hfrom _ _ Hk) as (_ & arg & Hin & Hdash & _).
      rewrite Forall_forall in Hnone. rewrite (Hnone arg Hin) in Hdash.
      discriminate.
    + rewrite Hpos. clear -Hnone.
      induction Hnone as [|arg args Harg _ IH]; [done|]. simpl.
      by rewrite Harg, IH.
Qed.

Lemma parseArguments_partitions_witness :
  pa_positional (parseArguments ["run"; "--rm"; "-it"; "myimage"])
  = ["run"; "myimage"].
Proof.
  destruct (parseArguments_partitions ["run"; "--rm"; "-it"; "myimage"])
    as (H & _).
  exact H.
Defined.

Lemma split_char_cons sep s : ∃ first others, split_char sep s = first :: others.
Proof.
  induction s as [|c s (first & others & IH)]; simpl; [eauto|].
  destruct (Ascii.eqb c sep); [eauto|]. rewrite IH. eauto.
Qed.

(** Splitting a text that begins with a piece free of the separator. *)
Lemma split_char_piece sep piece rest :
  all_chars (λ c, negb (Ascii.eqb c sep)) piece = true →
  split_char sep (piece +:+ String sep rest) = piece :: split_char sep rest
  ∧ split_char sep piece = [piece].
Proof.
  induction piece as [|c piece IH]; intros Hfree.
  - split; [|done]. change ("" +:+ String sep rest) with (String sep rest).
    cbn [split_char]. by rewrite Ascii.eqb_refl.
  - cbn [all_chars] in Hfree. apply andb_true_iff in Hfree as [Hc Hfree].
    apply negb_true_iff in Hc. destruct (IH Hfree) as [IH1 IH2].
    change (String c piece +:+ String sep rest)
      with (String c (piece +:+ String sep rest)).
    cbn [split_char]. by rewrite Hc, IH1, IH2.
Qed.

Lemma slice_from_2 c d s : slice_from 2 (String c (String d s)) = s.
Proof.
  unfold slice_from. cbn [String.length].
  replace (S (S (String.length s)) - 2) with (String.length s) by lia.
  cbn [String.substring]. apply substring_all.
Qed.

Lemma fold_left_snoc {A B : Type} (f : A → B → A) (l : list B) (x : B) (a : A) :
  fold_left f (l ++ [x]) a = f (fold_left f l a) x.
Proof. by rewrite fold_left_app. Qed.

(** X22. A long option given last is read back.  After any arguments, a
    final argument [--key=value] sets [key] to [value]: for a key free of
    equals signs (and other than [__proto__]) and a non-empty value free
    of equals signs.  A further [=...] after the value is dropped, and an
    earlier setting of the key is overridden. *)
Theorem last_long_option_wins
    (args : list string) (key value tail : string)
    (Hkey : all_chars (λ c, negb (Ascii.eqb c equals_sign)) key = true)
    (Hproto : key ≠ "__proto__")
    (Hvalue : all_chars (λ c, negb (Ascii.eqb c equals_sign)) value = true)
    (Hnonempty : value ≠ "")
    (Htail : tail = "" ∨ ∃ t, tail = String equals_sign t) :
  let arg := String dash (String dash (key +:+ String equals_sign (value +:+ tail))) in
  pa_options (parseArguments (args ++ [arg])) !! key = Some (OText value) ∧
  pa_positional (parseArguments (args ++ [arg])) = pa_positional (parseArguments args).
Proof.
  intros arg. unfold parseArguments. rewrite fold_left_snoc.
  fold (parseArguments args).
  assert (split_char equals_sign (slice_from 2 arg)
          = key :: split_char equals_sign (value +:+ tail)) as Hsplit.
  { unfold arg. rewrite slice_from_2. by apply split_char_piece. }
  assert (∃ others, split_char equals_sign (value +:+ tail) = value :: others)
    as [others Hpieces].
  { destruct Htail as [-> | [t ->]].
    - exists []. replace (value +:+ "") with value.
      + by apply (split_char_piece equals_sign value "").
      + clear. induction value as [|c v IH]; [done|].
        change (String c v +:+ "") with (String c (v +:+ "")). by rewrite <- IH.
    - eexists. by apply split_char_piece. }
  unfold parse_argument.
  change (starts_with_dash arg) with true. cbv iota. simpl pa_positional.
  split; [|done]. simpl pa_options.
  assert (option_key arg = key) as ->.
  { unfold option_key. change (starts_with_two_dashes arg) with true. cbv iota.
    by rewrite Hsplit. }
  assert (option_value arg = OText value) as ->.
  { unfold option_value. change (starts_with_two_dashes arg) with true. cbv iota.
    rewrite Hsplit, Hpieces. simpl.
    destruct (String.eqb value "") eqn:Hv; [|done].
    by apply String.eqb_eq in Hv. }
  unfold set_option. apply String.eqb_neq in Hproto. rewrite Hproto.
  apply lookup_insert_eq.
Qed.

Lemma last_long_option_wins_witness :
  pa_options (parseArguments ["--name=old"; "file"; "--name=new=x"]) !! "name"
  = Some (OText "new").
Proof.
  destruct (last_long_option_wins ["--name=old"; "file"] "name" "new"
              (String equals_sign "x")
              eq_refl ltac:(discriminate) eq_refl ltac:(discriminate)
              (or_intror (ex_intro _ "x" eq_refl))) as [H _].
  exact H.
Defined.
